(** * Borrowing lifecycle of the library back end

    A shallow embedding of the request handlers of
    [borrowing.controller.js] (borrowBook, returnBook, extendBorrowing,
    getUserBorrowings, getOverdueBorrowings, getBorrowingStats),
    of [book.controller.js] (getBookById, updateBook, getBookStats,
    syncBookStatus) and of [overdue.service.js] (checkOverdueBooks,
    startOverdueChecker), with the properties the specification states
    about them and further properties of the code.

    Modelling conventions.
    - A table with a primary key is a finite map from the key to the row
      ([gmap string _]); the append-only tables whose generated keys the
      handlers never read (notifications, audit log) are lists in insertion
      order.
    - An [async] handler is a program whose steps are the [await]ed store
      calls.  One program text has two readings: [exec] runs it alone, from
      its first to its last step, and [interleave] runs several of them under
      a schedule that picks, at every step, which handler proceeds.
    - A date is the number of milliseconds since the epoch; the host's time
      zone has a fixed offset, so that a calendar day lasts [DAY_MS].
    - Numbers received in a request body are integers.
    - A query returns the rows as the tables hold them: the columns that a
      [select] leaves out, and the category and the shelf that an [include]
      joins, are not part of the model.  The order among rows that an
      [orderBy] does not tell apart is left to the sort; no property
      depends on it. *)

From Stdlib Require Import ZArith.
From stdpp Require Import gmap strings pretty list fin_maps sorting.

Local Open Scope Z_scope.

(** ** Enumerations of the schema *)

Inductive UserRole := ADMIN | STAFF | USER.
Inductive UserStatus := ACTIVE | INACTIVE | SUSPENDED.
Inductive BookStatus := BK_AVAILABLE | BK_BORROWED | BK_MAINTENANCE | BK_LOST.
Inductive BorrowingStatus := BORROWED | RETURNED | OVERDUE.
Inductive NotificationType := NT_OVERDUE | NT_REMINDER | NT_SYSTEM | NT_INFO.

#[global] Instance UserRole_eq_dec : EqDecision UserRole.
Proof. solve_decision. Defined.
#[global] Instance UserStatus_eq_dec : EqDecision UserStatus.
Proof. solve_decision. Defined.
#[global] Instance BookStatus_eq_dec : EqDecision BookStatus.
Proof. solve_decision. Defined.
#[global] Instance BorrowingStatus_eq_dec : EqDecision BorrowingStatus.
Proof. solve_decision. Defined.
#[global] Instance NotificationType_eq_dec : EqDecision NotificationType.
Proof. solve_decision. Defined.

(** ** Rows *)

Module Book.
Record t := mk {
  title : string;
  author : string;
  isbn : option string;
  categoryId : option string;
  shelfId : option string;
  copiesTotal : Z;
  copiesAvailable : Z;
  status : BookStatus;
  description : option string;
  publicationYear : option Z
}.

Definition set_copiesAvailable (f : Z → Z) (b : t) : t :=
  mk (title b) (author b) (isbn b) (categoryId b) (shelfId b)
     (copiesTotal b) (f (copiesAvailable b)) (status b)
     (description b) (publicationYear b).

Definition set_status (s : BookStatus) (b : t) : t :=
  mk (title b) (author b) (isbn b) (categoryId b) (shelfId b)
     (copiesTotal b) (copiesAvailable b) s
     (description b) (publicationYear b).
End Book.

Module User.
Record t := mk {
  email : string;
  fullName : string;
  role : UserRole;
  status : UserStatus
}.
End User.

Module Borrowing.
Record t := mk {
  userId : string;
  bookId : string;
  borrowDate : Z;
  expectedReturnDate : Z;
  actualReturnDate : option Z;
  status : BorrowingStatus;
  notes : option string
}.

Definition set_status (s : BorrowingStatus) (b : t) : t :=
  mk (userId b) (bookId b) (borrowDate b) (expectedReturnDate b)
     (actualReturnDate b) s (notes b).

Definition set_expectedReturnDate (d : Z) (b : t) : t :=
  mk (userId b) (bookId b) (borrowDate b) d
     (actualReturnDate b) (status b) (notes b).

Definition set_returned (d : Z) (n : option string) (b : t) : t :=
  mk (userId b) (bookId b) (borrowDate b) (expectedReturnDate b)
     (Some d) RETURNED n.
End Borrowing.

Module Notification.
Record t := mk {
  userId : string;
  type : NotificationType;
  title : string;
  message : string;
  isRead : bool;
  createdAt : Z
}.
End Notification.

(** The JSON payloads the handlers store in [oldValue] and [newValue]. *)
Inductive AuditValue :=
| AV_borrowed (borrower borrowerId : string) (borrowDate expectedReturn : Z)
| AV_status_date (status : BorrowingStatus) (date : option Z)
| AV_expected (expectedReturnDate : Z)
| AV_book (b : Book.t).

Inductive AuditAction :=
| BOOK_BORROWED | BOOK_RETURNED | BORROWING_EXTENDED | BOOK_UPDATED.

Module AuditLog.
Record t := mk {
  userId : string;
  bookId : option string;
  action : AuditAction;
  oldValue : option AuditValue;
  newValue : option AuditValue;
  ipAddress : string
}.
End AuditLog.

(** Lines written with [console.log] and [console.error], with the values
    interpolated in them. *)
Inductive LogEvent :=
| LogOverdueSent (borrowingId userId bookId email title : string)
| LogOverdueCompleted (found : nat)
| LogOverdueError
| LogCheckerStarted.

(** ** Errors *)

Inductive ErrorCode :=
| FORBIDDEN | VALIDATION_ERROR | BOOK_NOT_FOUND | NO_COPIES_AVAILABLE
| USER_NOT_FOUND | INACTIVE_USER | ALREADY_BORROWED | BORROWING_LIMIT_REACHED
| BORROWING_NOT_FOUND | ALREADY_RETURNED | INVALID_STATUS | ISBN_EXISTS.

#[global] Instance ErrorCode_eq_dec : EqDecision ErrorCode.
Proof. solve_decision. Defined.

(** What a handler can throw: an [AppError] with its code and HTTP status, a
    Prisma error ([P2002] unique constraint, [P2025] record not found), the
    [TypeError] of a property read on [null], or the rejection of a store
    call by an unavailable store. *)
Inductive Err :=
| AppError (code : ErrorCode) (status : Z)
| P2002
| P2025
| TypeError
| StoreUnavailable.

#[global] Instance Err_eq_dec : EqDecision Err.
Proof. solve_decision. Defined.

(** ** The state the handlers act on *)

Record State := mkState {
  books : gmap string Book.t;
  users : gmap string User.t;
  borrowings : gmap string Borrowing.t;
  notifications : list Notification.t;
  auditLogs : list AuditLog.t;
  console : list LogEvent;
  clock : Z
}.

Definition with_books (f : gmap string Book.t → gmap string Book.t)
    (st : State) : State :=
  mkState (f (books st)) (users st) (borrowings st) (notifications st)
          (auditLogs st) (console st) (clock st).

Definition with_borrowings
    (f : gmap string Borrowing.t → gmap string Borrowing.t)
    (st : State) : State :=
  mkState (books st) (users st) (f (borrowings st)) (notifications st)
          (auditLogs st) (console st) (clock st).

Definition add_notification (n : Notification.t) (st : State) : State :=
  mkState (books st) (users st) (borrowings st) (notifications st ++ [n])
          (auditLogs st) (console st) (clock st).

Definition add_auditLog (a : AuditLog.t) (st : State) : State :=
  mkState (books st) (users st) (borrowings st) (notifications st)
          (auditLogs st ++ [a]) (console st) (clock st).

Definition add_console (e : LogEvent) (st : State) : State :=
  mkState (books st) (users st) (borrowings st) (notifications st)
          (auditLogs st) (console st ++ [e]) (clock st).

(** ** Handlers as programs *)

(** [Await op k] is [await] on a store call: the call [op] runs atomically
    on the state, and the handler resumes with its outcome, a rejection
    included (which [try]/[catch] can intercept).  [Sync f k] is an effect
    that cannot fail and does not yield: [new Date()], [console.log]. *)
Inductive Prog (A : Type) : Type :=
| Ret (a : A)
| Throw (e : Err)
| Await (X : Type) (op : State → (Err + X) * State) (k : Err + X → Prog A)
| Sync (X : Type) (f : State → X * State) (k : X → Prog A).

Arguments Ret {A} a.
Arguments Throw {A} e.
Arguments Await {A X} op k.
Arguments Sync {A X} f k.

Fixpoint bind {A B} (p : Prog A) (f : A → Prog B) : Prog B :=
  match p with
  | Ret a => f a
  | Throw e => Throw e
  | Await op k => Await op (λ r, bind (k r) f)
  | Sync g k => Sync g (λ x, bind (k x) f)
  end.

#[global] Instance Prog_ret : MRet Prog := @Ret.
#[global] Instance Prog_bind : MBind Prog := λ A B f p, bind p f.

(** A rejected store call throws in the handler that awaits it. *)
Definition await {X} (op : State → (Err + X) * State) : Prog X :=
  Await op (λ r, match r with inl e => Throw e | inr x => Ret x end).

Definition sync {X} (f : State → X * State) : Prog X :=
  Sync f Ret.

(** [if (c) throw e;] *)
Definition throw_if (c : bool) (e : Err) : Prog unit :=
  if c then Throw e else Ret tt.

(** [try { p } catch (error) { h error }] *)
Fixpoint try_catch {A} (p : Prog A) (h : Err → Prog A) : Prog A :=
  match p with
  | Ret a => Ret a
  | Throw e => h e
  | Await op k => Await op (λ r, try_catch (k r) h)
  | Sync g k => Sync g (λ x, try_catch (k x) h)
  end.

(** [for (const x of l) { body x }] *)
Fixpoint for_of {X} (l : list X) (body : X → Prog unit) : Prog unit :=
  match l with
  | [] => Ret tt
  | x :: l' => body x;; for_of l' body
  end.

(** Running one handler from start to end.  [outage] tells, for each store
    call in turn, whether the store rejects it ([true]); the calls after the
    end of the list are served. *)
Fixpoint run {A} (p : Prog A) (outage : list bool) (st : State)
    : (Err + A) * State :=
  match p with
  | Ret a => (inr a, st)
  | Throw e => (inl e, st)
  | Await op k =>
      match outage with
      | true :: o => run (k (inl StoreUnavailable)) o st
      | _ => let '(r, st') := op st in run (k r) (tail outage) st'
      end
  | Sync g k => let '(x, st') := g st in run (k x) outage st'
  end.

(** The part of [outage] that is left after the run of [p]. *)
Fixpoint rest {A} (p : Prog A) (outage : list bool) (st : State)
    : list bool :=
  match p with
  | Ret _ | Throw _ => outage
  | Await op k =>
      match outage with
      | true :: o => rest (k (inl StoreUnavailable)) o st
      | _ => let '(r, st') := op st in rest (k r) (tail outage) st'
      end
  | Sync g k => let '(x, st') := g st in rest (k x) outage st'
  end.

(** The run on a store that serves every call. *)
Definition exec {A} (p : Prog A) (st : State) : (Err + A) * State :=
  run p [] st.


(** ** JavaScript values *)

(** [!!s] for a string that may be missing: [undefined], [null] and the
    empty string are falsy. *)
Definition truthy (o : option string) : bool :=
  match o with
  | Some (String _ _) => true
  | _ => false
  end.

(** [a || b] for numbers: [undefined], [NaN] and [0] are falsy. *)
Definition num_or (a : option Z) (b : Z) : Z :=
  match a with
  | Some n => if n =? 0 then b else n
  | None => b
  end.

(** [a || b] for strings that may be [null]. *)
Definition str_or (a b : option string) : option string :=
  if truthy a then a else b.

Definition DAY_MS : Z := 1000 * 60 * 60 * 24.

(** [d.setDate(d.getDate() + n)] *)
Definition addDays (d n : Z) : Z := d + n * DAY_MS.

Definition dquote : string := String (Ascii.ascii_of_nat 34) EmptyString.

(** [message.contains(t)]: [t] occurs in [s]. *)
Fixpoint contains (t s : string) : bool :=
  String.prefix t s ||
  match s with
  | EmptyString => false
  | String _ s' => contains t s'
  end.

(** ** The host environment of a handler call *)

(** [uuid] is the key Prisma generates for the row the call inserts; the
    two variables of [process.env] are given as read by [parseInt]
    ([None] for [NaN]); [tzOffset] is the offset of local time, in
    milliseconds. *)
Record Env := mkEnv {
  uuid : string;
  MAX_BOOKS_PER_USER : option Z;
  MAX_BORROW_DAYS : option Z;
  tzOffset : Z;
  toLocaleDateString : Z → string
}.

(** [d.setHours(0, 0, 0, 0)] *)
Definition startOfDay (env : Env) (d : Z) : Z :=
  d - (d + tzOffset env) `mod` DAY_MS.

(** ** Store calls (the Prisma client) *)

Definition Call (X : Type) : Type := State → (Err + X) * State.

(** The first row of a table that satisfies [P], if any. *)
Definition map_find {V} (P : string * V → Prop) `{!∀ x, Decision (P x)}
    (m : gmap string V) : option (string * V) :=
  head (map_to_list (filter P m)).

(** [new Date()] *)
Definition newDate : Prog Z := sync (λ st, (clock st, st)).

Definition console_log (e : LogEvent) : Prog unit :=
  sync (λ st, (tt, add_console e st)).

Definition prisma_book_findUnique (id : string) : Call (option Book.t) :=
  λ st, (inr (books st !! id), st).

Definition prisma_book_findUnique_isbn (i : string)
    : Call (option (string * Book.t)) :=
  λ st, (inr (map_find (λ kv, Book.isbn kv.2 = Some i) (books st)), st).

(** [isbn] is unique among the books: an update that changes it to a value
    another row holds is rejected. *)
Definition isbn_conflict (id : string) (old new : Book.t)
    (m : gmap string Book.t) : bool :=
  match Book.isbn new with
  | Some i =>
      if decide (Book.isbn new = Book.isbn old) then false
      else bool_decide
             (is_Some (map_find (λ kv, kv.1 ≠ id ∧ Book.isbn kv.2 = Some i) m))
  | None => false
  end.

Definition prisma_book_update (id : string) (f : Book.t → Book.t)
    : Call Book.t :=
  λ st, match books st !! id with
        | None => (inl P2025, st)
        | Some b =>
            if isbn_conflict id b (f b) (books st) then (inl P2002, st)
            else (inr (f b), with_books (insert id (f b)) st)
        end.

Definition prisma_user_findUnique (id : string) : Call (option User.t) :=
  λ st, (inr (users st !! id), st).

(** A borrowing read with [include: { user: true, book: true }]. *)
Record BorrowingIncl := mkIncl {
  id : string;
  row : Borrowing.t;
  user : option User.t;
  book : option Book.t
}.

Definition include (st : State) (kv : string * Borrowing.t) : BorrowingIncl :=
  mkIncl kv.1 kv.2 (users st !! Borrowing.userId kv.2)
         (books st !! Borrowing.bookId kv.2).

Definition prisma_borrowing_findUnique (bid : string)
    : Call (option BorrowingIncl) :=
  λ st, (inr ((λ b, include st (bid, b)) <$> borrowings st !! bid), st).

Definition prisma_borrowing_findFirst (P : Borrowing.t → Prop)
    `{!∀ x, Decision (P x)} : Call (option (string * Borrowing.t)) :=
  λ st, (inr (map_find (λ kv, P kv.2) (borrowings st)), st).

Definition prisma_borrowing_count (P : Borrowing.t → Prop)
    `{!∀ x, Decision (P x)} : Call Z :=
  λ st, (inr (Z.of_nat (size (filter (λ kv, P kv.2) (borrowings st)))), st).

Definition prisma_borrowing_findMany (P : Borrowing.t → Prop)
    `{!∀ x, Decision (P x)} : Call (list BorrowingIncl) :=
  λ st, (inr (include st <$>
                map_to_list (filter (λ kv, P kv.2) (borrowings st))), st).

(** The primary key is unique.  The rows the handlers insert refer to users
    and books they have read just before: the foreign keys of an insert are
    not checked again. *)
Definition prisma_borrowing_create (bid : string) (b : Borrowing.t)
    : Call BorrowingIncl :=
  λ st, match borrowings st !! bid with
        | Some _ => (inl P2002, st)
        | None =>
            let st' := with_borrowings (insert bid b) st in
            (inr (include st' (bid, b)), st')
        end.

Definition prisma_borrowing_update (bid : string)
    (f : Borrowing.t → Borrowing.t) : Call BorrowingIncl :=
  λ st, match borrowings st !! bid with
        | None => (inl P2025, st)
        | Some b =>
            let st' := with_borrowings (insert bid (f b)) st in
            (inr (include st' (bid, f b)), st')
        end.

Definition prisma_notification_findFirst (P : Notification.t → Prop)
    `{!∀ x, Decision (P x)} : Call (option Notification.t) :=
  λ st, (inr (head (filter P (notifications st))), st).

(** [createdAt] and [isRead] take the values given here: the schema's
    default for the first, [false] in every call of the handlers. *)
Definition prisma_notification_create (userId : string)
    (type : NotificationType) (title message : string) : Call unit :=
  λ st, (inr tt,
         add_notification
           (Notification.mk userId type title message false (clock st)) st).

Definition prisma_auditLog_create (a : AuditLog.t) : Call unit :=
  λ st, (inr tt, add_auditLog a st).

(** ** Requests *)

(** [req.user], set by the authentication middleware. *)
Record Actor := mkActor {
  actor_id : string;
  actor_role : UserRole
}.

Record BorrowReq := mkBorrowReq {
  borrow_user : Actor;
  borrow_ip : string;
  borrow_userId : option string;
  borrow_bookId : option string;
  borrowDays : option Z;
  borrow_notes : option string
}.

Record ReturnReq := mkReturnReq {
  return_user : Actor;
  return_ip : string;
  return_borrowingId : string;
  return_notes : option string
}.

Record ExtendReq := mkExtendReq {
  extend_user : Actor;
  extend_ip : string;
  extend_borrowingId : string;
  additionalDays : option Z
}.

(** A field of the body of [updateBook] is [None] when it is [undefined];
    the nullable columns take [Some None] for [null]. *)
Record UpdateBookReq := mkUpdateBookReq {
  update_user : Actor;
  update_ip : string;
  update_id : string;
  body_title : option string;
  body_author : option string;
  body_isbn : option (option string);
  body_categoryId : option (option string);
  body_shelfId : option (option string);
  body_copiesTotal : option Z;
  body_copiesAvailable : option Z;
  body_description : option (option string);
  body_publicationYear : option (option Z);
  body_status : option BookStatus
}.

(** ** borrowing.controller.js *)

(** An exception thrown in a handler goes to [next(error)]: the outcome
    [inl e] of a run is the error the Express error middleware receives, and
    [inr x] is the [data] of the JSON response. *)

Definition borrowBook (env : Env) (req : BorrowReq) : Prog BorrowingIncl :=
  userId ←
    (if negb (truthy (borrow_userId req)) then
       mret (actor_id (borrow_user req))
     else
       let userId := default EmptyString (borrow_userId req) in
       if bool_decide (userId ≠ actor_id (borrow_user req))
          && bool_decide (actor_role (borrow_user req) ≠ ADMIN)
       then Throw (AppError FORBIDDEN 403)
       else mret userId);
  throw_if (negb (truthy (borrow_bookId req)))
           (AppError VALIDATION_ERROR 400);;
  let bookId := default EmptyString (borrow_bookId req) in
  book ← await (prisma_book_findUnique bookId);
  match book with
  | None => Throw (AppError BOOK_NOT_FOUND 404)
  | Some book =>
  throw_if (Book.copiesAvailable book <=? 0)
           (AppError NO_COPIES_AVAILABLE 400);;
  user ← await (prisma_user_findUnique userId);
  match user with
  | None => Throw (AppError USER_NOT_FOUND 404)
  | Some user =>
  throw_if (bool_decide (User.status user ≠ ACTIVE))
           (AppError INACTIVE_USER 403);;
  existingBorrowing ← await (prisma_borrowing_findFirst (λ b,
    Borrowing.userId b = userId ∧ Borrowing.bookId b = bookId ∧
    Borrowing.status b = BORROWED));
  throw_if (bool_decide (is_Some existingBorrowing))
           (AppError ALREADY_BORROWED 400);;
  activeBorrowings ← await (prisma_borrowing_count (λ b,
    Borrowing.userId b = userId ∧ Borrowing.status b = BORROWED));
  let MAX := num_or (MAX_BOOKS_PER_USER env) 5 in
  throw_if (MAX <=? activeBorrowings)
           (AppError BORROWING_LIMIT_REACHED 400);;
  let days := num_or (borrowDays req) (num_or (MAX_BORROW_DAYS env) 14) in
  today ← newDate;
  let expectedReturnDate := addDays today days in
  borrowDate ← newDate;
  borrowing ← await (prisma_borrowing_create (uuid env)
    (Borrowing.mk userId bookId borrowDate expectedReturnDate None BORROWED
                  (borrow_notes req)));
  await (prisma_book_update bookId
           (Book.set_copiesAvailable (λ n, n - 1)));;
  await (prisma_auditLog_create
    (AuditLog.mk (actor_id (borrow_user req)) (Some bookId) BOOK_BORROWED None
       (Some (AV_borrowed (User.fullName user) userId
                (Borrowing.borrowDate (row borrowing)) expectedReturnDate))
       (borrow_ip req)));;
  await (prisma_notification_create userId NT_INFO
    "Book Borrowed Successfully"
    ("You have borrowed " +:+ dquote +:+ Book.title book +:+ dquote +:+
     ". Please return it by " +:+
     toLocaleDateString env expectedReturnDate +:+ "."));;
  mret borrowing
  end end.

Definition returnBook (env : Env) (req : ReturnReq) : Prog BorrowingIncl :=
  let borrowingId := return_borrowingId req in
  borrowing ← await (prisma_borrowing_findUnique borrowingId);
  match borrowing with
  | None => Throw (AppError BORROWING_NOT_FOUND 404)
  | Some borrowing =>
  throw_if (bool_decide (Borrowing.status (row borrowing) = RETURNED))
           (AppError ALREADY_RETURNED 400);;
  actualReturnDate ← newDate;
  updatedBorrowing ← await (prisma_borrowing_update borrowingId
    (Borrowing.set_returned actualReturnDate
       (str_or (return_notes req) (Borrowing.notes (row borrowing)))));
  await (prisma_book_update (Borrowing.bookId (row borrowing))
           (Book.set_copiesAvailable (λ n, n + 1)));;
  await (prisma_auditLog_create
    (AuditLog.mk (actor_id (return_user req))
       (Some (Borrowing.bookId (row borrowing))) BOOK_RETURNED
       (Some (AV_status_date BORROWED
                (Some (Borrowing.borrowDate (row borrowing)))))
       (Some (AV_status_date RETURNED
                (Borrowing.actualReturnDate (row updatedBorrowing))))
       (return_ip req)));;
  now ← newDate;
  let isOverdue :=
    bool_decide (Borrowing.expectedReturnDate (row borrowing) < now) in
  match book borrowing with
  | None => Throw TypeError
  | Some bk =>
  await (prisma_notification_create (Borrowing.userId (row borrowing))
    (if isOverdue then NT_REMINDER else NT_INFO)
    "Book Returned"
    ("Thank you for returning " +:+ dquote +:+ Book.title bk +:+ dquote +:+
     (if isOverdue then " (was overdue)" else EmptyString) +:+ "."));;
  mret updatedBorrowing
  end end.

Definition extendBorrowing (env : Env) (req : ExtendReq)
    : Prog BorrowingIncl :=
  let borrowingId := extend_borrowingId req in
  match additionalDays req with
  | None => Throw (AppError VALIDATION_ERROR 400)
  | Some additionalDays =>
  throw_if ((additionalDays =? 0) || (additionalDays <? 1))
           (AppError VALIDATION_ERROR 400);;
  borrowing ← await (prisma_borrowing_findUnique borrowingId);
  match borrowing with
  | None => Throw (AppError BORROWING_NOT_FOUND 404)
  | Some borrowing =>
  throw_if (bool_decide (Borrowing.status (row borrowing) ≠ BORROWED))
           (AppError INVALID_STATUS 400);;
  let newExpectedReturn :=
    addDays (Borrowing.expectedReturnDate (row borrowing)) additionalDays in
  updatedBorrowing ← await (prisma_borrowing_update borrowingId
    (Borrowing.set_expectedReturnDate newExpectedReturn));
  await (prisma_auditLog_create
    (AuditLog.mk (actor_id (extend_user req))
       (Some (Borrowing.bookId (row borrowing))) BORROWING_EXTENDED
       (Some (AV_expected (Borrowing.expectedReturnDate (row borrowing))))
       (Some (AV_expected newExpectedReturn))
       (extend_ip req)));;
  mret updatedBorrowing
  end end.

(** ** book.controller.js *)

(** The [data] of [updateBook]: a field is written when the spread that
    guards it is taken. *)
Definition update_data (req : UpdateBookReq) (b : Book.t) : Book.t :=
  Book.mk
    (if truthy (body_title req)
     then default (Book.title b) (body_title req) else Book.title b)
    (if truthy (body_author req)
     then default (Book.author b) (body_author req) else Book.author b)
    (default (Book.isbn b) (body_isbn req))
    (default (Book.categoryId b) (body_categoryId req))
    (default (Book.shelfId b) (body_shelfId req))
    (default (Book.copiesTotal b) (body_copiesTotal req))
    (default (Book.copiesAvailable b) (body_copiesAvailable req))
    (default (Book.status b) (body_status req))
    (default (Book.description b) (body_description req))
    (default (Book.publicationYear b) (body_publicationYear req)).

Definition updateBook (env : Env) (req : UpdateBookReq) : Prog Book.t :=
  let id := update_id req in
  existingBook ← await (prisma_book_findUnique id);
  match existingBook with
  | None => Throw (AppError BOOK_NOT_FOUND 404)
  | Some existingBook =>
  match body_isbn req with
  | Some (Some (String a i)) =>
      if bool_decide (Some (String a i) ≠ Book.isbn existingBook) then
        duplicateIsbn ← await (prisma_book_findUnique_isbn (String a i));
        throw_if (bool_decide (is_Some duplicateIsbn))
                 (AppError ISBN_EXISTS 409)
      else mret tt
  | _ => mret tt
  end;;
  match body_copiesAvailable req, body_copiesTotal req with
  | Some copiesAvailable, Some copiesTotal =>
      throw_if (copiesTotal <? copiesAvailable)
               (AppError VALIDATION_ERROR 400)
  | _, _ => mret tt
  end;;
  book ← await (prisma_book_update id (update_data req));
  await (prisma_auditLog_create
    (AuditLog.mk (actor_id (update_user req)) (Some id) BOOK_UPDATED
       (Some (AV_book existingBook)) (Some (AV_book book))
       (update_ip req)));;
  mret book
  end.

Definition prisma_book_findMany (P : Book.t → Prop)
    `{!∀ x, Decision (P x)} : Call (list (string * Book.t)) :=
  λ st, (inr (map_to_list (filter (λ kv, P kv.2) (books st))), st).

(** The loop of [syncBookStatus], with its counter [updated]. *)
Fixpoint syncBookStatus_loop (l : list (string * Book.t)) (updated : nat)
    : Prog nat :=
  match l with
  | [] => mret updated
  | (id, book) :: l' =>
      let correctStatus :=
        if 0 <? Book.copiesAvailable book then BK_AVAILABLE else BK_BORROWED in
      if bool_decide (Book.status book ≠ correctStatus) then
        await (prisma_book_update id (Book.set_status correctStatus));;
        syncBookStatus_loop l' (S updated)
      else syncBookStatus_loop l' updated
  end.

(** Returns [totalBooks] and [updated]. *)
Definition syncBookStatus : Prog (nat * nat) :=
  books ← await (prisma_book_findMany (λ b,
    Book.status b ≠ BK_MAINTENANCE ∧ Book.status b ≠ BK_LOST));
  updated ← syncBookStatus_loop books 0;
  mret (length books, updated).

(** ** overdue.service.js *)

Definition overdueMessage (title : string) (daysOverdue : Z) : string :=
  "Your book " +:+ dquote +:+ title +:+ dquote +:+ " is overdue by " +:+
  pretty daysOverdue +:+
  " day(s). Please return it as soon as possible.".

(** [o.f] where [o] may be [null]. *)
Definition prop_of {A B} (o : option A) (f : A → B) : Prog B :=
  match o with
  | Some a => mret (f a)
  | None => Throw TypeError
  end.

(** The body of the [for] loop of [checkOverdueBooks]. *)
Definition checkOverdueBooks_body (env : Env) (borrowing : BorrowingIncl)
    : Prog unit :=
  await (prisma_borrowing_update (id borrowing)
           (Borrowing.set_status OVERDUE));;
  now ← newDate;
  let today := startOfDay env now in
  title ← prop_of (book borrowing) Book.title;
  existingNotification ← await (prisma_notification_findFirst (λ n,
    Notification.userId n = Borrowing.userId (row borrowing) ∧
    Notification.type n = NT_OVERDUE ∧
    today ≤ Notification.createdAt n ∧
    contains title (Notification.message n) = true));
  match existingNotification with
  | Some _ => mret tt
  | None =>
      now ← newDate;
      let daysOverdue :=
        (now - Borrowing.expectedReturnDate (row borrowing)) `div` DAY_MS in
      await (prisma_notification_create (Borrowing.userId (row borrowing))
        NT_OVERDUE "Book Overdue" (overdueMessage title daysOverdue));;
      email ← prop_of (user borrowing) User.email;
      console_log (LogOverdueSent (id borrowing)
        (Borrowing.userId (row borrowing)) (Borrowing.bookId (row borrowing))
        email title)
  end.

Definition checkOverdueBooks (env : Env) : Prog unit :=
  try_catch
    (now ← newDate;
     overdueBorrowings ← await (prisma_borrowing_findMany (λ b,
       Borrowing.status b = BORROWED ∧
       Borrowing.expectedReturnDate b < now));
     for_of overdueBorrowings (checkOverdueBooks_body env);;
     console_log (LogOverdueCompleted (length overdueBorrowings)))
    (λ error, console_log LogOverdueError).

(** The timer of [startOverdueChecker].  A firing is given by the time on
    the clock and the outage of the store during that tick.  A tick whose
    promise rejects is an unhandled rejection, which ends the process: the
    firings after it do not happen. *)
Definition at_time (t : Z) (st : State) : State :=
  mkState (books st) (users st) (borrowings st) (notifications st)
          (auditLogs st) (console st) t.

Fixpoint setInterval (tick : Prog unit) (firings : list (Z * list bool))
    (st : State) : (Err + unit) * State :=
  match firings with
  | [] => (inr tt, st)
  | (t, outage) :: rest =>
      match run tick outage (at_time t st) with
      | (inl e, st') => (inl e, st')
      | (inr _, st') => setInterval tick rest st'
      end
  end.

(** [first] is the outage during the immediate check. *)
Definition startOverdueChecker (env : Env) (first : list bool)
    (firings : list (Z * list bool)) (st : State) : (Err + unit) * State :=
  match run (checkOverdueBooks env) first
            (add_console LogCheckerStarted st) with
  | (inl e, st') => (inl e, st')
  | (inr _, st') => setInterval (checkOverdueBooks env) firings st'
  end.

(** ** Handlers running at the same time *)

(** One turn of a handler: it runs up to its next store call and performs
    that call. *)
Fixpoint turn {A} (p : Prog A) (st : State) : Prog A * State :=
  match p with
  | Sync g k => let '(x, st') := g st in turn (k x) st'
  | Await op k => let '(r, st') := op st in (k r, st')
  | _ => (p, st)
  end.

(** The handlers [ps] run on one store; [sched] names the handler that takes
    each turn. *)
Fixpoint interleave {A} (sched : list nat) (ps : list (Prog A)) (st : State)
    : list (Prog A) * State :=
  match sched with
  | [] => (ps, st)
  | i :: sched' =>
      match ps !! i with
      | Some p =>
          let '(p', st') := turn p st in
          interleave sched' (<[i:=p']> ps) st'
      | None => interleave sched' ps st
      end
  end.

(** What a handler has answered, once it has. *)
Definition outcome {A} (p : Prog A) : option (Err + A) :=
  match p with
  | Ret a => Some (inr a)
  | Throw e => Some (inl e)
  | _ => None
  end.

(** ** The preconditions of borrowBook, as properties of the request and of
    the state *)

(** The user the book is lent to. *)
Definition borrower (req : BorrowReq) : string :=
  if truthy (borrow_userId req)
  then default EmptyString (borrow_userId req)
  else actor_id (borrow_user req).

Definition book_of (req : BorrowReq) : string :=
  default EmptyString (borrow_bookId req).

(** The request names a borrower who is not the caller. *)
Definition on_behalf (req : BorrowReq) : Prop :=
  truthy (borrow_userId req) = true ∧
  borrower req ≠ actor_id (borrow_user req).

(** [uid] has a borrowing of [bid] with status [BORROWED]. *)
Definition holds (st : State) (uid bid : string) : Prop :=
  ∃ k b, borrowings st !! k = Some b ∧ Borrowing.userId b = uid ∧
         Borrowing.bookId b = bid ∧ Borrowing.status b = BORROWED.

(** The number of borrowings of [uid] whose status is in [statuses]. *)
Definition count_status (statuses : list BorrowingStatus) (st : State)
    (uid : string) : Z :=
  Z.of_nat (size (filter
    (λ kv : string * Borrowing.t,
       Borrowing.userId kv.2 = uid ∧ Borrowing.status kv.2 ∈ statuses)
    (borrowings st))).

Definition max_books (env : Env) : Z := num_or (MAX_BOOKS_PER_USER env) 5.

Definition borrow_days (env : Env) (req : BorrowReq) : Z :=
  num_or (borrowDays req) (num_or (MAX_BORROW_DAYS env) 14).

(** The row a successful borrowBook inserts. *)
Definition borrowed_row (env : Env) (req : BorrowReq) (st : State)
    : Borrowing.t :=
  Borrowing.mk (borrower req) (book_of req) (clock st)
    (addDays (clock st) (borrow_days env req)) None BORROWED
    (borrow_notes req).

(** All the checks of borrowBook pass, and the generated key is new. *)
Definition borrow_ok (env : Env) (req : BorrowReq) (st : State)
    (book : Book.t) (user : User.t) : Prop :=
  (on_behalf req → actor_role (borrow_user req) = ADMIN) ∧
  truthy (borrow_bookId req) = true ∧
  books st !! book_of req = Some book ∧
  0 < Book.copiesAvailable book ∧
  users st !! borrower req = Some user ∧
  User.status user = ACTIVE ∧
  ¬ holds st (borrower req) (book_of req) ∧
  count_status [BORROWED] st (borrower req) < max_books env ∧
  borrowings st !! uuid env = None.

(** ** A small library, for the examples *)

Module Scenario.
Definition env : Env := mkEnv "br-new" None None 0 (λ d, pretty d).

Definition a_book (title : string) (total available : Z) : Book.t :=
  Book.mk title "An Author" None None None total available BK_AVAILABLE
          None None.

Definition a_user (name : string) (role : UserRole) : User.t :=
  User.mk (name +:+ "@library.local") name role ACTIVE.

Definition a_borrowing (uid bid : string) (due : Z)
    (status : BorrowingStatus) : Borrowing.t :=
  Borrowing.mk uid bid 0 due None status None.

Definition the_books : gmap string Book.t :=
  list_to_map
    [("b1", a_book "Dune" 3 3); ("b2", a_book "Emma" 1 1);
     ("b3", a_book "Ulysses" 2 1); ("b4", a_book "Walden" 2 1);
     ("b5", a_book "Hamlet" 2 1); ("b6", a_book "Candide" 2 1);
     ("b7", a_book "Utopia" 2 1)].

Definition the_users : gmap string User.t :=
  list_to_map
    [("admin", a_user "admin" ADMIN); ("staff", a_user "staff" STAFF);
     ("u1", a_user "u1" USER); ("u2", a_user "u2" USER)].

(** Nobody has borrowed anything; the clock shows day 100. *)
Definition quiet : State :=
  mkState the_books the_users ∅ [] [] [] (100 * DAY_MS).

Definition admin : Actor := mkActor "admin" ADMIN.
Definition staff : Actor := mkActor "staff" STAFF.

(** [actor] lends [bid] to [uid]. *)
Definition lend (actor : Actor) (uid bid : string) : BorrowReq :=
  mkBorrowReq actor "10.0.0.1" (Some uid) (Some bid) None None.

(** [u1] has five books out, due on day 114: [n_overdue] of them are
    flagged OVERDUE, the others are BORROWED. *)
Definition five_out (n_overdue : nat) : State :=
  let status i := if (i <? n_overdue)%nat then OVERDUE else BORROWED in
  mkState the_books the_users
    (list_to_map
       [("br-3", a_borrowing "u1" "b3" (114 * DAY_MS) (status 0%nat));
        ("br-4", a_borrowing "u1" "b4" (114 * DAY_MS) (status 1%nat));
        ("br-5", a_borrowing "u1" "b5" (114 * DAY_MS) (status 2%nat));
        ("br-6", a_borrowing "u1" "b6" (114 * DAY_MS) (status 3%nat));
        ("br-7", a_borrowing "u1" "b7" (114 * DAY_MS) (status 4%nat))])
    [] [] [] (120 * DAY_MS).
End Scenario.

(** ** What returnBook and extendBorrowing write *)

(** The borrowing [b] once returned by [req] at the time on the clock. *)
Definition returned_row (req : ReturnReq) (st : State) (b : Borrowing.t)
    : Borrowing.t :=
  Borrowing.set_returned (clock st)
    (str_or (return_notes req) (Borrowing.notes b)) b.

(** The notification of a return. *)
Definition return_notification (st : State) (b : Borrowing.t)
    (title : string) : Notification.t :=
  let isOverdue := bool_decide (Borrowing.expectedReturnDate b < clock st) in
  Notification.mk (Borrowing.userId b)
    (if isOverdue then NT_REMINDER else NT_INFO)
    "Book Returned"
    ("Thank you for returning " +:+ dquote +:+ title +:+ dquote +:+
     (if isOverdue then " (was overdue)" else EmptyString) +:+ ".")
    false (clock st).

Module Scenario2.
Import Scenario.

(** [u1] has [b2] out since day 100, due on day 114; the clock shows
    [today]. *)
Definition one_out (status : BorrowingStatus) (today : Z) : State :=
  mkState (<["b2" := a_book "Emma" 1 0]> the_books) the_users
    (list_to_map
       [("br-1", Borrowing.mk "u1" "b2" (100 * DAY_MS) (114 * DAY_MS)
                   None status None)])
    [] [] [] (today * DAY_MS).

Definition give_back (bid : string) : ReturnReq :=
  mkReturnReq staff "10.0.0.1" bid None.

Definition extend_by (bid : string) (days : Z) : ExtendReq :=
  mkExtendReq staff "10.0.0.1" bid (Some days).
End Scenario2.

(** ** The inventory *)

(** The invariant of the copy counters, for every book of the catalogue. *)
Definition inventory_ok (st : State) : Prop :=
  map_Forall (λ _ b, 0 ≤ Book.copiesAvailable b ≤ Book.copiesTotal b)
             (books st).

(** The same, as a test that computes. *)
Definition inventory_check (st : State) : bool :=
  forallb (λ kv : string * Book.t,
             (0 <=? Book.copiesAvailable kv.2) &&
             (Book.copiesAvailable kv.2 <=? Book.copiesTotal kv.2))
          (map_to_list (books st)).


Module Scenario3.
Import Scenario.

(** A body that sets the copy counters only. *)
Definition set_copies (id : string) (total available : option Z)
    : UpdateBookReq :=
  mkUpdateBookReq staff "10.0.0.1" id None None None None None
                  total available None None None.
End Scenario3.

(** ** The overdue sweep, seen from outside *)

(** What the query of checkOverdueBooks selects at time [c]. *)
Definition is_overdue (c : Z) (b : Borrowing.t) : Prop :=
  Borrowing.status b = BORROWED ∧ Borrowing.expectedReturnDate b < c.

#[global] Instance is_overdue_dec (c : Z) (b : Borrowing.t)
    : Decision (is_overdue c b).
Proof. unfold is_overdue. apply _. Defined.

Definition mark_overdue (c : Z) (b : Borrowing.t) : Borrowing.t :=
  if decide (is_overdue c b) then Borrowing.set_status OVERDUE b else b.

(** The foreign keys of a borrowing resolve. *)
Definition refs_ok (st : State) : Prop :=
  ∀ k b, borrowings st !! k = Some b →
    is_Some (users st !! Borrowing.userId b) ∧
    is_Some (books st !! Borrowing.bookId b).

Definition title_of (x : BorrowingIncl) : string :=
  from_option Book.title EmptyString (book x).

Definition email_of (x : BorrowingIncl) : string :=
  from_option User.email EmptyString (user x).


(** The notification and the console line of the sweep for [x]. *)
Definition overdue_notification (c : Z) (x : BorrowingIncl)
    : Notification.t :=
  Notification.mk (Borrowing.userId (row x)) NT_OVERDUE "Book Overdue"
    (overdueMessage (title_of x)
       ((c - Borrowing.expectedReturnDate (row x)) `div` DAY_MS))
    false c.

Definition sent_event (x : BorrowingIncl) : LogEvent :=
  LogOverdueSent (id x) (Borrowing.userId (row x)) (Borrowing.bookId (row x))
                 (email_of x) (title_of x).

(** The borrowings of [l] for which the loop of the sweep, run at time [c]
    on the notifications [ns], issues a notification. *)
Fixpoint notified (env : Env) (c : Z) (ns : list Notification.t)
    (l : list BorrowingIncl) : list BorrowingIncl :=
  match l with
  | [] => []
  | x :: l' =>
      match head (filter (λ n,
              Notification.userId n = Borrowing.userId (row x) ∧
              Notification.type n = NT_OVERDUE ∧
              startOfDay env c ≤ Notification.createdAt n ∧
              contains (title_of x) (Notification.message n) = true) ns) with
      | Some _ => notified env c ns l'
      | None => x :: notified env c (ns ++ [overdue_notification c x]) l'
      end
  end.

(** What the query of the sweep returns at the time on the clock. *)
Definition overdue_now (st : State) : list BorrowingIncl :=
  include st <$>
    map_to_list (filter (λ kv : string * Borrowing.t,
                           Borrowing.status kv.2 = BORROWED ∧
                           Borrowing.expectedReturnDate kv.2 < clock st)
                        (borrowings st)).


(** [refs_ok], as a test that computes. *)
Definition refs_check (st : State) : bool :=
  forallb (λ kv : string * Borrowing.t,
             bool_decide (is_Some (users st !! Borrowing.userId kv.2)) &&
             bool_decide (is_Some (books st !! Borrowing.bookId kv.2)))
          (map_to_list (borrowings st)).

(** A program that cannot end in an exception, whatever the store calls
    answer. *)
Fixpoint never_throws {A} (p : Prog A) : Prop :=
  match p with
  | Ret _ => True
  | Throw _ => False
  | Await _ k => ∀ r, never_throws (k r)
  | Sync _ k => ∀ x, never_throws (k x)
  end.

Module Scenario4.
Import Scenario.

(** On day 120, [u1] is late with Emma (due on day 114) and with Ulysses
    (due on day 113); [u2] has Walden until day 130. *)
Definition two_late : State :=
  mkState the_books the_users
    (list_to_map
       [("br-1", a_borrowing "u1" "b2" (114 * DAY_MS) BORROWED);
        ("br-2", a_borrowing "u1" "b3" (113 * DAY_MS) BORROWED);
        ("br-3", a_borrowing "u2" "b4" (130 * DAY_MS) BORROWED)])
    [] [] [] (120 * DAY_MS).
End Scenario4.

(** [n] turns of one handler. *)
Fixpoint turns {A} (n : nat) (p : Prog A) (st : State) : Prog A * State :=
  match n with
  | O => (p, st)
  | S n' => let '(p', st') := turn p st in turns n' p' st'
  end.

(** Two handlers take turns, one store call each, for the eight store calls
    of a borrow. *)
Definition take_turns : list nat :=
  [0; 1; 0; 1; 0; 1; 0; 1; 0; 1; 0; 1; 0; 1; 0; 1]%nat.

Module Scenario5.
Import Scenario.

(** Two requests for Emma, of which one copy is left, with the keys
    Prisma generates for their rows. *)
Definition env_a : Env := mkEnv "br-a" None None 0 (λ d, pretty d).
Definition env_b : Env := mkEnv "br-b" None None 0 (λ d, pretty d).
Definition req_a : BorrowReq := lend admin "u1" "b2".
Definition req_b : BorrowReq := lend admin "u2" "b2".
End Scenario5.

(** ** The ledger of copies *)

(** The number of borrowings of [bid] that are not RETURNED. *)
Definition on_loan (st : State) (bid : string) : Z :=
  Z.of_nat (size (filter
    (λ kv : string * Borrowing.t,
       Borrowing.bookId kv.2 = bid ∧ Borrowing.status kv.2 ≠ RETURNED)
    (borrowings st))).

(** Every copy of every book is either available or out on a borrowing
    that is not RETURNED. *)
Definition ledger_ok (st : State) : Prop :=
  ∀ bid b, books st !! bid = Some b →
    0 ≤ Book.copiesAvailable b ∧
    Book.copiesAvailable b + on_loan st bid = Book.copiesTotal b.

(** One event in the life of the library: a call of a handler of the
    borrowing controller, a tick of the sweep, or the clock moving to [t]. *)
Inductive LifecycleOp :=
| DoBorrow (env : Env) (req : BorrowReq)
| DoReturn (env : Env) (req : ReturnReq)
| DoExtend (env : Env) (req : ExtendReq)
| DoSweep (env : Env)
| Elapse (t : Z).

Definition lifecycle_step (st : State) (op : LifecycleOp) : State :=
  match op with
  | DoBorrow env req => (exec (borrowBook env req) st).2
  | DoReturn env req => (exec (returnBook env req) st).2
  | DoExtend env req => (exec (extendBorrowing env req) st).2
  | DoSweep env => (exec (checkOverdueBooks env) st).2
  | Elapse t => at_time t st
  end.

(** The events of [ops], one after the other. *)
Definition lifecycle (ops : list LifecycleOp) (st : State) : State :=
  foldl lifecycle_step st ops.

(** [ledger_ok], as a test that computes. *)
Definition ledger_check (st : State) : bool :=
  forallb (λ kv : string * Book.t,
             (0 <=? Book.copiesAvailable kv.2) &&
             (Book.copiesAvailable kv.2 + on_loan st kv.1
                =? Book.copiesTotal kv.2))
          (map_to_list (books st)).

Module Scenario6.
Import Scenario.

(** Two titles, all copies on the shelf, on day 100. *)
Definition shelf : State :=
  mkState (list_to_map [("b1", a_book "Dune" 3 3); ("b2", a_book "Emma" 1 1)])
          the_users ∅ [] [] [] (100 * DAY_MS).

(** The only copy of Emma is lent to [u1], flagged three weeks later,
    extended in vain, and returned. *)
Definition story : list LifecycleOp :=
  [DoBorrow env (lend admin "u1" "b2");
   Elapse (121 * DAY_MS);
   DoSweep env;
   DoExtend env (Scenario2.extend_by "br-new" 7);
   DoReturn env (Scenario2.give_back "br-new")].
End Scenario6.

(** ** The queries of the borrowing controller *)

(** [orderBy: { expectedReturnDate: 'asc' }] and
    [orderBy: { borrowDate: 'desc' }] *)
Definition by_expectedReturnDate_asc (x y : BorrowingIncl) : Prop :=
  Borrowing.expectedReturnDate (row x) ≤ Borrowing.expectedReturnDate (row y).

Definition by_borrowDate_desc (x y : BorrowingIncl) : Prop :=
  Borrowing.borrowDate (row y) ≤ Borrowing.borrowDate (row x).

#[global] Instance by_expectedReturnDate_asc_dec x y
    : Decision (by_expectedReturnDate_asc x y).
Proof. unfold by_expectedReturnDate_asc. apply _. Defined.

#[global] Instance by_borrowDate_desc_dec x y
    : Decision (by_borrowDate_desc x y).
Proof. unfold by_borrowDate_desc. apply _. Defined.

(** [findMany] with [where], [include] and [orderBy]. *)
Definition prisma_borrowing_findMany_orderBy (P : Borrowing.t → Prop)
    `{!∀ x, Decision (P x)} (R : relation BorrowingIncl)
    `{!∀ x y, Decision (R x y)} : Call (list BorrowingIncl) :=
  λ st, (inr (merge_sort R
                (include st <$>
                   map_to_list (filter (λ kv, P kv.2) (borrowings st)))), st).

(** [l.map(f)] for a callback that reads the clock. *)
Fixpoint map_sync {X Y} (f : X → Prog Y) (l : list X) : Prog (list Y) :=
  match l with
  | [] => mret []
  | x :: l' => y ← f x; ys ← map_sync f l'; mret (y :: ys)
  end.

(** Returns the overdue borrowings, each with its [daysOverdue]. *)
Definition getOverdueBorrowings : Prog (list (BorrowingIncl * Z)) :=
  now ← newDate;
  borrowings ← await (prisma_borrowing_findMany_orderBy (λ b,
    Borrowing.status b = BORROWED ∧ Borrowing.expectedReturnDate b < now)
    by_expectedReturnDate_asc);
  map_sync (λ b,
    now ← newDate;
    let daysOverdue :=
      (now - Borrowing.expectedReturnDate (row b)) `div` DAY_MS in
    mret (b, daysOverdue)) borrowings.

(** [where = { userId }], with [status] when the query gives one; the
    status is one of the three of the schema. *)
Definition getUserBorrowings (userId : string)
    (status : option BorrowingStatus) : Prog (list BorrowingIncl) :=
  match status with
  | Some s =>
      await (prisma_borrowing_findMany_orderBy (λ b,
        Borrowing.userId b = userId ∧ Borrowing.status b = s)
        by_borrowDate_desc)
  | None =>
      await (prisma_borrowing_findMany_orderBy (λ b,
        Borrowing.userId b = userId) by_borrowDate_desc)
  end.

Record BorrowingStats := mkBorrowingStats {
  totalBorrowings : Z;
  activeBorrowings : Z;
  returnedBorrowings : Z;
  overdueBorrowings : Z
}.

(** The four counts are the elements of one array, so that the clock is
    read before the first of them is awaited. *)
Definition getBorrowingStats : Prog BorrowingStats :=
  now ← newDate;
  totalBorrowings ← await (prisma_borrowing_count (λ _, True));
  activeBorrowings ← await (prisma_borrowing_count (λ b,
    Borrowing.status b = BORROWED));
  returnedBorrowings ← await (prisma_borrowing_count (λ b,
    Borrowing.status b = RETURNED));
  overdueBorrowings ← await (prisma_borrowing_count (λ b,
    Borrowing.status b = BORROWED ∧ Borrowing.expectedReturnDate b < now));
  mret (mkBorrowingStats totalBorrowings activeBorrowings returnedBorrowings
                         overdueBorrowings).

(** ** The queries of the book controller *)

(** [findUnique] of a book with [include: { borrowings: { orderBy:
    { borrowDate: 'desc' }, take: 10 } }]. *)
Definition prisma_book_findUnique_borrowings (id : string)
    : Call (option (Book.t * list BorrowingIncl)) :=
  λ st, (inr (match books st !! id with
              | Some b =>
                  Some (b, take 10 (merge_sort by_borrowDate_desc
                    (include st <$> map_to_list (filter
                       (λ kv : string * Borrowing.t,
                          Borrowing.bookId kv.2 = id) (borrowings st)))))
              | None => None
              end), st).

(** A book read with its borrowings, newest first, ten at most. *)
Definition getBookById (id : string)
    : Prog (Book.t * list BorrowingIncl) :=
  book ← await (prisma_book_findUnique_borrowings id);
  match book with
  | None => Throw (AppError BOOK_NOT_FOUND 404)
  | Some book => mret book
  end.

Definition prisma_book_count (P : Book.t → Prop)
    `{!∀ x, Decision (P x)} : Call Z :=
  λ st, (inr (Z.of_nat (size (filter (λ kv, P kv.2) (books st)))), st).

(** [aggregate({ _sum: { f: true } })._sum.f]: [null] for an empty
    table. *)
Definition prisma_book_sum (f : Book.t → Z) : Call (option Z) :=
  λ st, (inr (match map_to_list (books st) with
              | [] => None
              | l => Some (foldr (λ kv s, f kv.2 + s) 0 l)
              end), st).

Record BookStats := mkBookStats {
  totalBooks : Z;
  availableBooks : Z;
  borrowedBooks : Z;
  maintenanceBooks : Z;
  lostBooks : Z;
  totalCopies : Z;
  availableCopies : Z
}.

Definition getBookStats : Prog BookStats :=
  totalBooks ← await (prisma_book_count (λ _, True));
  availableBooks ← await (prisma_book_count (λ b,
    Book.status b = BK_AVAILABLE));
  borrowedBooks ← await (prisma_book_count (λ b,
    Book.status b = BK_BORROWED));
  maintenanceBooks ← await (prisma_book_count (λ b,
    Book.status b = BK_MAINTENANCE));
  lostBooks ← await (prisma_book_count (λ b, Book.status b = BK_LOST));
  totalCopies ← await (prisma_book_sum Book.copiesTotal);
  availableCopies ← await (prisma_book_sum Book.copiesAvailable);
  mret (mkBookStats totalBooks availableBooks borrowedBooks maintenanceBooks
          lostBooks (num_or totalCopies 0) (num_or availableCopies 0)).

(** ** What the further properties speak of *)

(** The borrowings of a user that a tick at time [c] finds overdue. *)
Definition count_overdue (c : Z) (st : State) (uid : string) : Z :=
  Z.of_nat (size (filter
    (λ kv : string * Borrowing.t,
       Borrowing.userId kv.2 = uid ∧ is_overdue c kv.2)
    (borrowings st))).

(** The borrowings with a given status, and the books with one. *)
Definition borrowings_with (s : BorrowingStatus) (st : State) : Z :=
  Z.of_nat (size (filter
    (λ kv : string * Borrowing.t, Borrowing.status kv.2 = s)
    (borrowings st))).

Definition books_with (s : BookStatus) (st : State) : Z :=
  Z.of_nat (size (filter
    (λ kv : string * Book.t, Book.status kv.2 = s) (books st))).

(** The status that [syncBookStatus] gives to a book it looks at, and the
    books it leaves alone. *)
Definition correctStatus (b : Book.t) : BookStatus :=
  if 0 <? Book.copiesAvailable b then BK_AVAILABLE else BK_BORROWED.

Definition manual_status (b : Book.t) : Prop :=
  Book.status b = BK_MAINTENANCE ∨ Book.status b = BK_LOST.

#[global] Instance manual_status_dec (b : Book.t) : Decision (manual_status b).
Proof. unfold manual_status. apply _. Defined.

Definition synced (b : Book.t) : Book.t :=
  if decide (manual_status b) then b
  else Book.set_status (correctStatus b) b.

(** The [status] of the query of getUserBorrowings, when it has one. *)
Definition has_status (status : option BorrowingStatus) (b : Borrowing.t)
    : Prop :=
  match status with
  | Some s => Borrowing.status b = s
  | None => True
  end.

#[global] Instance has_status_dec status b : Decision (has_status status b).
Proof. destruct status; cbn; apply _. Defined.

(** The sum of a counter over the catalogue. *)
Definition sum_books (f : Book.t → Z) (st : State) : Z :=
  foldr (λ kv s, f kv.2 + s) 0 (map_to_list (books st)).

(** Two returns of one borrowing: both read it before either writes. *)
Definition both_read_first : list nat :=
  [0; 1; 0; 0; 0; 0; 1; 1; 1; 1]%nat.

Module Scenario7.
Import Scenario.

(** Dune has the empty string for ISBN, Emma a proper one. *)
Definition with_isbn (i : string) (b : Book.t) : Book.t :=
  Book.mk (Book.title b) (Book.author b) (Some i) (Book.categoryId b)
          (Book.shelfId b) (Book.copiesTotal b) (Book.copiesAvailable b)
          (Book.status b) (Book.description b) (Book.publicationYear b).

Definition catalogue : State :=
  mkState
    (list_to_map
       [("b1", with_isbn EmptyString (a_book "Dune" 3 3));
        ("b2", with_isbn "978-0" (a_book "Emma" 1 1))])
    the_users ∅ [] [] [] (100 * DAY_MS).

(** A body that sets the ISBN only. *)
Definition set_isbn (id i : string) : UpdateBookReq :=
  mkUpdateBookReq staff "10.0.0.1" id None None (Some (Some i)) None None
                  None None None None None.
End Scenario7.

(** A handler whose answer is not looked at. *)
Definition answered {A} (p : Prog A) : Prog unit := p ≫= λ _, mret tt.

(** The tick reads the overdue borrowings; another handler then takes [n]
    turns, and the tick the [m] turns after them. *)
Definition tick_reads_first (n m : nat) : list nat :=
  0%nat :: replicate n 1%nat ++ replicate m 0%nat.

(** * Properties *)

(** ** Running programs *)

Lemma exec_bind {A B} (p : Prog A) (f : A → Prog B) (st : State) :
  exec (p ≫= f) st =
  match exec p st with
  | (inl e, st') => (inl e, st')
  | (inr a, st') => exec (f a) st'
  end.
Proof.
  unfold exec. revert st.
  induction p as [a|e|X op k IH|X g k IH]; intros st; cbn; try done.
  - destruct (op st) as [r st']. apply IH.
  - destruct (g st) as [x st']. apply IH.
Qed.

Lemma exec_await {X} (op : Call X) (st : State) : exec (await op) st = op st.
Proof. unfold exec. cbn. by destruct (op st) as [[e|x] st']. Qed.

(** ** Searching a table *)

Lemma map_find_is_Some {V} (P : string * V → Prop) `{!∀ x, Decision (P x)}
    (m : gmap string V) :
  is_Some (map_find P m) ↔ ∃ k v, m !! k = Some v ∧ P (k, v).
Proof.
  unfold map_find. rewrite head_is_Some. split.
  - intros Hne. destruct (map_to_list (filter P m)) as [|[k v] l] eqn:E; [done|].
    exists k, v. apply (map_lookup_filter_Some P m k v), elem_of_map_to_list.
    rewrite E. left.
  - intros (k & v & Hk & HP) E.
    assert (Hin : (k, v) ∈ map_to_list (filter P m)).
    { apply elem_of_map_to_list, map_lookup_filter_Some. done. }
    rewrite E in Hin. by apply not_elem_of_nil in Hin.
Qed.


Lemma isbn_conflict_same (id : string) (old new : Book.t)
    (m : gmap string Book.t) :
  Book.isbn new = Book.isbn old → isbn_conflict id old new m = false.
Proof.
  intros E. unfold isbn_conflict. destruct (Book.isbn new); [|done].
  by rewrite decide_True.
Qed.

(** ** borrowBook *)

Lemma count_borrowed_eq (st : State) (uid : string) :
  Z.of_nat (size (filter
    (λ kv : string * Borrowing.t,
       Borrowing.userId kv.2 = uid ∧ Borrowing.status kv.2 = BORROWED)
    (borrowings st))) = count_status [BORROWED] st uid.
Proof.
  unfold count_status. do 2 f_equal. apply map_filter_ext.
  intros k b _. cbn. rewrite list_elem_of_singleton. done.
Qed.

Lemma holds_find (st : State) (uid bid : string) :
  holds st uid bid ↔
  is_Some (map_find (λ kv : string * Borrowing.t,
    Borrowing.userId kv.2 = uid ∧ Borrowing.bookId kv.2 = bid ∧
    Borrowing.status kv.2 = BORROWED) (borrowings st)).
Proof. rewrite map_find_is_Some. unfold holds. naive_solver. Qed.

Lemma holds_dec (st : State) (uid bid : string) :
  holds st uid bid ∨ ¬ holds st uid bid.
Proof.
  rewrite holds_find.
  match goal with |- ?P ∨ _ => destruct (decide P); auto end.
Qed.

(** The run of borrowBook, check after check. *)
Lemma borrowBook_cases (env : Env) (req : BorrowReq) (st : State) :
  let uid := borrower req in
  let bid := book_of req in
  let res := exec (borrowBook env req) st in
  (on_behalf req → actor_role (borrow_user req) ≠ ADMIN →
   res = (inl (AppError FORBIDDEN 403), st)) ∧
  ((on_behalf req → actor_role (borrow_user req) = ADMIN) →
   (truthy (borrow_bookId req) = false →
    res = (inl (AppError VALIDATION_ERROR 400), st)) ∧
   (truthy (borrow_bookId req) = true →
    (books st !! bid = None →
     res = (inl (AppError BOOK_NOT_FOUND 404), st)) ∧
    (∀ book, books st !! bid = Some book →
     (Book.copiesAvailable book ≤ 0 →
      res = (inl (AppError NO_COPIES_AVAILABLE 400), st)) ∧
     (0 < Book.copiesAvailable book →
      (users st !! uid = None →
       res = (inl (AppError USER_NOT_FOUND 404), st)) ∧
      (∀ user, users st !! uid = Some user →
       (User.status user ≠ ACTIVE →
        res = (inl (AppError INACTIVE_USER 403), st)) ∧
       (User.status user = ACTIVE →
        (holds st uid bid →
         res = (inl (AppError ALREADY_BORROWED 400), st)) ∧
        (¬ holds st uid bid →
         (max_books env ≤ count_status [BORROWED] st uid →
          res = (inl (AppError BORROWING_LIMIT_REACHED 400), st)) ∧
         (count_status [BORROWED] st uid < max_books env →
          (is_Some (borrowings st !! uuid env) → res = (inl P2002, st)) ∧
          (borrowings st !! uuid env = None →
           ∃ st',
             res = (inr (mkIncl (uuid env) (borrowed_row env req st)
                           (Some user) (Some book)), st') ∧
             books st' =
               <[bid := Book.set_copiesAvailable (λ n, n - 1) book]>
                 (books st) ∧
             borrowings st' =
               <[uuid env := borrowed_row env req st]> (borrowings st) ∧
             users st' = users st ∧ clock st' = clock st ∧
             console st' = console st ∧
             length (notifications st') = S (length (notifications st)) ∧
             length (auditLogs st') = S (length (auditLogs st))))))))))).
Proof.
  intros uid bid res.
  assert (Hres : res = exec (borrowBook env req) st) by done.
  clearbody res. unfold exec, borrowBook in Hres.
  split.
  { intros [Ht Hne] Hr. unfold borrower in Hne. rewrite Ht in Hne, Hres.
    cbn in Hres. rewrite !bool_decide_eq_true_2 in Hres by done. done. }
  intros Hpriv.
  match type of Hres with
  | _ = run (mbind ?k ?p) _ _ => assert (Hp : p = mret uid)
  end.
  { subst uid. unfold on_behalf, borrower in *.
    destruct (truthy (borrow_userId req)); [|done]. cbn.
    case_bool_decide as H1; [|done]. cbn.
    case_bool_decide as H2; [|done]. destruct H2. by apply Hpriv. }
  rewrite Hp in Hres. clear Hp. cbn in Hres.
  change (default EmptyString (borrow_bookId req)) with bid in Hres.
  split; intros Hb; rewrite Hb in Hres; [done|]. cbn in Hres.
  split; [intros E; by rewrite E in Hres|].
  intros book E. rewrite E in Hres. cbn in Hres.
  split; intros Hc.
  { by rewrite (proj2 (Z.leb_le _ _)) in Hres. }
  rewrite (proj2 (Z.leb_gt _ _)) in Hres by done. cbn in Hres.
  split; [intros Eu; by rewrite Eu in Hres|].
  intros user Eu. rewrite Eu in Hres. cbn in Hres.
  split; intros Ha.
  { by rewrite bool_decide_eq_true_2 in Hres. }
  rewrite bool_decide_eq_false_2 in Hres by (by intros []). cbn in Hres.
  split; intros Hh; rewrite holds_find in Hh.
  { by rewrite bool_decide_eq_true_2 in Hres. }
  rewrite bool_decide_eq_false_2 in Hres by done. cbn in Hres.
  rewrite count_borrowed_eq in Hres. fold (max_books env) in Hres.
  split; intros Hm.
  { by rewrite (proj2 (Z.leb_le _ _)) in Hres. }
  rewrite (proj2 (Z.leb_gt _ _)) in Hres by done. cbn in Hres.
  unfold prisma_borrowing_create in Hres.
  split.
  { intros [b Eb]. by rewrite Eb in Hres. }
  intros Eb. rewrite Eb in Hres. cbn in Hres.
  unfold prisma_book_update in Hres. cbn in Hres. rewrite E in Hres.
  rewrite isbn_conflict_same in Hres by done. cbn in Hres.
  unfold include in Hres. cbn in Hres. rewrite Eu, E in Hres.
  eexists. split; [exact Hres|]. cbn.
  rewrite !length_app. cbn. repeat split; try done; lia.
Qed.

Lemma borrowBook_success (env : Env) (req : BorrowReq) (st : State)
    (book : Book.t) (user : User.t) :
  borrow_ok env req st book user →
  ∃ st',
    exec (borrowBook env req) st =
      (inr (mkIncl (uuid env) (borrowed_row env req st)
              (Some user) (Some book)), st') ∧
    books st' =
      <[book_of req := Book.set_copiesAvailable (λ n, n - 1) book]>
        (books st) ∧
    borrowings st' =
      <[uuid env := borrowed_row env req st]> (borrowings st) ∧
    users st' = users st ∧ clock st' = clock st ∧
    console st' = console st ∧
    length (notifications st') = S (length (notifications st)) ∧
    length (auditLogs st') = S (length (auditLogs st)).
Proof.
  intros (Hp & Hb & E & Hc & Eu & Ha & Hh & Hm & Eb).
  by apply (borrowBook_cases env req st).
Qed.

(** A run of borrowBook either fails and leaves the state as it was, or
    has passed every check. *)
Lemma borrowBook_inv (env : Env) (req : BorrowReq) (st : State) :
  (∃ e, exec (borrowBook env req) st = (inl e, st)) ∨
  (∃ book user, borrow_ok env req st book user).
Proof.
  destruct (borrowBook_cases env req st) as [H1 H2].
  destruct (decide (truthy (borrow_userId req) = true ∧
                    borrower req ≠ actor_id (borrow_user req) ∧
                    actor_role (borrow_user req) ≠ ADMIN))
    as [(Ht & Hne & Hr)|Hp].
  { left. eexists. by apply H1. }
  assert (Hpriv : on_behalf req → actor_role (borrow_user req) = ADMIN).
  { intros [Ht Hne]. destruct (decide (actor_role (borrow_user req) = ADMIN));
      [done|]. destruct Hp. done. }
  destruct (H2 Hpriv) as [H3 H4].
  destruct (truthy (borrow_bookId req)) eqn:Hb; [|left; eauto].
  destruct (H4 eq_refl) as [H5 H6].
  destruct (books st !! book_of req) as [book|] eqn:E; [|left; eauto].
  destruct (H6 book eq_refl) as [H7 H8].
  destruct (decide (Book.copiesAvailable book ≤ 0)) as [Hc|Hc]; [left; eauto|].
  destruct H8 as [H9 H10]; [lia|].
  destruct (users st !! borrower req) as [user|] eqn:Eu; [|left; eauto].
  destruct (H10 user eq_refl) as [H11 H12].
  destruct (decide (User.status user = ACTIVE)) as [Ha|Ha]; [|left; eauto].
  destruct (H12 Ha) as [H13 H14].
  destruct (holds_dec st (borrower req) (book_of req)) as [Hh|Hh];
    [left; eauto|].
  destruct (H14 Hh) as [H15 H16].
  destruct (decide (max_books env ≤ count_status [BORROWED] st (borrower req)))
    as [Hm|Hm]; [left; eauto|].
  destruct H16 as [H17 H18]; [lia|].
  destruct (borrowings st !! uuid env) as [b|] eqn:Eb; [left; eauto|].
  right. exists book, user. unfold borrow_ok. repeat split; try done; lia.
Qed.

(** C3 (as the code has it).  When a borrow names a borrower who is not the
    caller, a caller whose role is not ADMIN, STAFF included, gets FORBIDDEN
    and nothing changes; the call succeeds only for a caller with role
    ADMIN; and a caller with role ADMIN is never answered FORBIDDEN. *)
Theorem borrowBook_on_behalf_requires_ADMIN
    (env : Env) (req : BorrowReq) (st : State) :
  on_behalf req →
  (actor_role (borrow_user req) ≠ ADMIN →
   exec (borrowBook env req) st = (inl (AppError FORBIDDEN 403), st)) ∧
  (∀ r st', exec (borrowBook env req) st = (inr r, st') →
   actor_role (borrow_user req) = ADMIN) ∧
  (actor_role (borrow_user req) = ADMIN →
   ∀ st', exec (borrowBook env req) st ≠ (inl (AppError FORBIDDEN 403), st')).
Proof.
  intros Hon.
  destruct (borrowBook_cases env req st) as [H1 H2].
  split; [by apply H1|]. split.
  - intros r st' Hres.
    destruct (decide (actor_role (borrow_user req) = ADMIN)) as [|Hr]; [done|].
    rewrite (H1 Hon Hr) in Hres. done.
  - intros Hr st' Hres.
    destruct (borrowBook_inv env req st) as [[e He]|(book & user & Hok)].
    + rewrite He in Hres. injection Hres as -> _. revert He.
      destruct (H2 (λ _, Hr)) as [H3 H4].
      destruct (truthy (borrow_bookId req)) eqn:Hb;
        [|by rewrite H3].
      destruct (H4 eq_refl) as [H5 H6].
      destruct (books st !! book_of req) as [book|] eqn:E; [|by rewrite H5].
      destruct (H6 book eq_refl) as [H7 H8].
      destruct (decide (Book.copiesAvailable book ≤ 0)); [by rewrite H7|].
      destruct H8 as [H9 H10]; [lia|].
      destruct (users st !! borrower req) as [user|] eqn:Eu; [|by rewrite H9].
      destruct (H10 user eq_refl) as [H11 H12].
      destruct (decide (User.status user = ACTIVE)); [|by rewrite H11].
      destruct H12 as [H13 H14]; [done|].
      destruct (holds_dec st (borrower req) (book_of req)); [by rewrite H13|].
      destruct H14 as [H15 H16]; [done|].
      destruct (decide (max_books env ≤
                        count_status [BORROWED] st (borrower req)));
        [by rewrite H15|].
      destruct H16 as [H17 H18]; [lia|].
      destruct (borrowings st !! uuid env) eqn:Eb; [by rewrite H17|].
      destruct (H18 eq_refl) as (st'' & -> & _). done.
    + destruct (borrowBook_success env req st book user Hok) as (st'' & E & _).
      rewrite E in Hres. done.
Qed.

Lemma borrowBook_on_behalf_requires_ADMIN_witness :
  on_behalf (Scenario.lend Scenario.staff "u1" "b1") ∧
  exec (borrowBook Scenario.env (Scenario.lend Scenario.staff "u1" "b1"))
       Scenario.quiet
  = (inl (AppError FORBIDDEN 403), Scenario.quiet).
Proof.
  assert (H : on_behalf (Scenario.lend Scenario.staff "u1" "b1")).
  { split; [reflexivity | vm_compute; discriminate]. }
  split; [exact H|].
  apply (borrowBook_on_behalf_requires_ADMIN Scenario.env
           (Scenario.lend Scenario.staff "u1" "b1") Scenario.quiet H).
  vm_compute. discriminate.
Defined.

(** C3, the claim as the specification states it, fails: a caller with role
    STAFF who lends a book to another user is answered FORBIDDEN, in a state
    where the same request from an ADMIN succeeds. *)
Lemma staff_cannot_borrow_for_another :
  on_behalf (Scenario.lend Scenario.staff "u1" "b1") ∧
  actor_role (borrow_user (Scenario.lend Scenario.staff "u1" "b1")) = STAFF ∧
  exec (borrowBook Scenario.env (Scenario.lend Scenario.staff "u1" "b1"))
       Scenario.quiet
  = (inl (AppError FORBIDDEN 403), Scenario.quiet) ∧
  ∃ r st',
    exec (borrowBook Scenario.env (Scenario.lend Scenario.admin "u1" "b1"))
         Scenario.quiet = (inr r, st').
Proof.
  split; [split; [reflexivity | vm_compute; discriminate]|].
  split; [reflexivity|]. split; [vm_compute; reflexivity|].
  eexists _, _. vm_compute. reflexivity.
Qed.

(** C4 (as the code has it).  Once the earlier checks of a borrow have
    passed, the call is rejected with BORROWING_LIMIT_REACHED exactly when
    the number of the borrower's borrowings with status BORROWED reaches the
    configured maximum; borrowings flagged OVERDUE are not counted. *)
Theorem borrowBook_limit_counts_BORROWED
    (env : Env) (req : BorrowReq) (st : State)
    (book : Book.t) (user : User.t) :
  (on_behalf req → actor_role (borrow_user req) = ADMIN) →
  truthy (borrow_bookId req) = true →
  books st !! book_of req = Some book →
  0 < Book.copiesAvailable book →
  users st !! borrower req = Some user →
  User.status user = ACTIVE →
  ¬ holds st (borrower req) (book_of req) →
  exec (borrowBook env req) st
    = (inl (AppError BORROWING_LIMIT_REACHED 400), st)
  ↔ max_books env ≤ count_status [BORROWED] st (borrower req).
Proof.
  intros Hp Hb E Hc Eu Ha Hh.
  destruct (borrowBook_cases env req st) as [_ H2].
  destruct (H2 Hp) as [_ H4]. destruct (H4 Hb) as [_ H6].
  destruct (H6 book E) as [_ H8]. destruct (H8 Hc) as [_ H10].
  destruct (H10 user Eu) as [_ H12]. destruct (H12 Ha) as [_ H14].
  destruct (H14 Hh) as [H15 H16].
  split; [|done]. intros Hres.
  destruct (decide (max_books env ≤
                    count_status [BORROWED] st (borrower req)))
    as [|Hm]; [done|].
  destruct H16 as [H17 H18]; [lia|].
  destruct (borrowings st !! uuid env) eqn:Eb.
  - rewrite H17 in Hres by done. done.
  - destruct (H18 eq_refl) as (st' & E' & _). rewrite E' in Hres. done.
Qed.

Lemma borrowBook_limit_counts_BORROWED_witness :
  count_status [BORROWED] (Scenario.five_out 0) "u1" = 5 ∧
  exec (borrowBook Scenario.env (Scenario.lend Scenario.admin "u1" "b1"))
       (Scenario.five_out 0)
  = (inl (AppError BORROWING_LIMIT_REACHED 400), Scenario.five_out 0).
Proof.
  split; [vm_compute; reflexivity|].
  apply (borrowBook_limit_counts_BORROWED Scenario.env
           (Scenario.lend Scenario.admin "u1" "b1") (Scenario.five_out 0)
           (Scenario.a_book "Dune" 3 3) (Scenario.a_user "u1" USER)).
  - reflexivity.
  - reflexivity.
  - vm_compute; reflexivity.
  - vm_compute; reflexivity.
  - vm_compute; reflexivity.
  - reflexivity.
  - rewrite holds_find. vm_compute. intros [x Hx]. discriminate Hx.
  - vm_compute. discriminate.
Defined.

(** C4, the claim as the specification states it, fails: a user whose
    BORROWED and OVERDUE borrowings total the limit of 5 (three BORROWED, two
    OVERDUE) borrows a sixth book. *)
Lemma overdue_borrowings_escape_the_limit :
  count_status [BORROWED; OVERDUE] (Scenario.five_out 2) "u1" = 5 ∧
  max_books Scenario.env = 5 ∧
  ∃ r st',
    exec (borrowBook Scenario.env (Scenario.lend Scenario.admin "u1" "b1"))
         (Scenario.five_out 2) = (inr r, st').
Proof.
  split; [vm_compute; reflexivity|]. split; [reflexivity|].
  eexists _, _. vm_compute. reflexivity.
Qed.



(** ** returnBook *)

(** The run of returnBook, check after check. *)
Lemma returnBook_cases (env : Env) (req : ReturnReq) (st : State) :
  let bid := return_borrowingId req in
  let res := exec (returnBook env req) st in
  (borrowings st !! bid = None →
   res = (inl (AppError BORROWING_NOT_FOUND 404), st)) ∧
  (∀ b, borrowings st !! bid = Some b →
   (Borrowing.status b = RETURNED →
    res = (inl (AppError ALREADY_RETURNED 400), st)) ∧
   (Borrowing.status b ≠ RETURNED →
    (books st !! Borrowing.bookId b = None →
     res = (inl P2025,
            with_borrowings (insert bid (returned_row req st b)) st)) ∧
    (∀ book, books st !! Borrowing.bookId b = Some book →
     ∃ st',
       res = (inr (mkIncl bid (returned_row req st b)
                     (users st !! Borrowing.userId b) (Some book)), st') ∧
       borrowings st' = <[bid := returned_row req st b]> (borrowings st) ∧
       books st' =
         <[Borrowing.bookId b :=
             Book.set_copiesAvailable (λ n, n + 1) book]> (books st) ∧
       notifications st' =
         notifications st ++ [return_notification st b (Book.title book)] ∧
       users st' = users st ∧ clock st' = clock st ∧
       console st' = console st ∧
       length (auditLogs st') = S (length (auditLogs st))))).
Proof.
  intros bid res.
  assert (Hres : res = exec (returnBook env req) st) by done.
  clearbody res. unfold exec, returnBook in Hres. cbn in Hres.
  change (return_borrowingId req) with bid in Hres.
  split; [intros E; by rewrite E in Hres|].
  intros b E. rewrite E in Hres. cbn in Hres.
  split; intros Hs.
  { by rewrite bool_decide_eq_true_2 in Hres. }
  rewrite bool_decide_eq_false_2 in Hres by done. cbn in Hres.
  unfold prisma_borrowing_update in Hres. rewrite E in Hres. cbn in Hres.
  unfold prisma_book_update in Hres. cbn in Hres.
  split; [intros Ek; by rewrite Ek in Hres|].
  intros book Ek. rewrite Ek in Hres.
  rewrite isbn_conflict_same in Hres by done. cbn in Hres.
  unfold include in Hres. cbn in Hres. rewrite ?Ek in Hres.
  eexists. split; [exact Hres|]. cbn. rewrite !length_app. cbn.
  repeat split; try done; lia.
Qed.

Lemma set_copiesAvailable_inc_dec (book : Book.t) :
  Book.set_copiesAvailable (λ n, n + 1)
    (Book.set_copiesAvailable (λ n, n - 1) book) = book.
Proof. destruct book. unfold Book.set_copiesAvailable. cbn. f_equal. lia. Qed.

(** C6.  A return of a borrowing that is not RETURNED (its book being in
    the catalogue) sets its status to RETURNED and its actualReturnDate to
    the time on the clock, adds exactly 1 to the copiesAvailable of the book,
    and issues one notification, of type REMINDER when the clock is past the
    expectedReturnDate and of type INFO otherwise; a return of a RETURNED
    borrowing fails with ALREADY_RETURNED and changes nothing.  A borrow
    followed by the return of the borrowing it created gives the books
    table back as it was before the borrow. *)
Theorem returnBook_returns_the_copy :
  (∀ (env : Env) (req : ReturnReq) (st : State) (b : Borrowing.t)
     (book : Book.t),
     borrowings st !! return_borrowingId req = Some b →
     books st !! Borrowing.bookId b = Some book →
     (Borrowing.status b = RETURNED →
      exec (returnBook env req) st
        = (inl (AppError ALREADY_RETURNED 400), st)) ∧
     (Borrowing.status b ≠ RETURNED →
      ∃ r st' b' book' n,
        exec (returnBook env req) st = (inr r, st') ∧
        borrowings st' !! return_borrowingId req = Some b' ∧
        Borrowing.status b' = RETURNED ∧
        Borrowing.actualReturnDate b' = Some (clock st) ∧
        books st' !! Borrowing.bookId b = Some book' ∧
        Book.copiesAvailable book' = Book.copiesAvailable book + 1 ∧
        Book.copiesTotal book' = Book.copiesTotal book ∧
        notifications st' = notifications st ++ [n] ∧
        Notification.userId n = Borrowing.userId b ∧
        Notification.type n =
          (if bool_decide (Borrowing.expectedReturnDate b < clock st)
           then NT_REMINDER else NT_INFO))) ∧
  (∀ (env env' : Env) (req : BorrowReq) (req' : ReturnReq) (st : State)
     (book : Book.t) (user : User.t),
     borrow_ok env req st book user →
     return_borrowingId req' = uuid env →
     ∃ r st1 r' st2 b',
       exec (borrowBook env req) st = (inr r, st1) ∧
       exec (returnBook env' req') st1 = (inr r', st2) ∧
       books st2 = books st ∧
       borrowings st2 !! uuid env = Some b' ∧
       Borrowing.status b' = RETURNED ∧
       Borrowing.actualReturnDate b' = Some (clock st)).
Proof.
  split.
  - intros env req st b book E Ek.
    destruct (returnBook_cases env req st) as [_ H2].
    destruct (H2 b E) as [H3 H4]. split; [done|]. intros Hs.
    destruct (H4 Hs) as [_ H6].
    destruct (H6 book Ek) as (st' & Hres & Hb & Hk & Hn & _).
    eexists _, st', (returned_row req st b),
      (Book.set_copiesAvailable (λ n, n + 1) book), _.
    split; [exact Hres|]. rewrite Hb, Hk, Hn, !lookup_insert_eq. done.
  - intros env env' req req' st book user Hok Hid.
    destruct (borrowBook_success env req st book user Hok)
      as (st1 & Hres1 & Hk1 & Hb1 & _ & Hc1 & _).
    destruct (returnBook_cases env' req' st1) as [_ H2].
    rewrite Hid in H2.
    destruct (H2 (borrowed_row env req st)) as [_ H4].
    { by rewrite Hb1, lookup_insert_eq. }
    destruct H4 as [_ H6]; [done|].
    destruct (H6 (Book.set_copiesAvailable (λ n, n - 1) book))
      as (st2 & Hres2 & Hb2 & Hk2 & _).
    { cbn. by rewrite Hk1, lookup_insert_eq. }
    eexists _, st1, _, st2, _.
    split; [exact Hres1|]. split; [exact Hres2|].
    split; [|rewrite Hb2, lookup_insert_eq; split; [reflexivity|];
              cbn; by rewrite Hc1].
    rewrite Hk2, Hk1. cbn. rewrite insert_insert_eq.
    rewrite set_copiesAvailable_inc_dec. apply insert_id.
    by destruct Hok as (_ & _ & ? & _).
Qed.

Lemma returnBook_returns_the_copy_witness :
  (∃ r st',
     exec (returnBook Scenario.env (Scenario2.give_back "br-1"))
          (Scenario2.one_out OVERDUE 120) = (inr r, st') ∧
     Book.copiesAvailable <$> books st' !! "b2" = Some 1 ∧
     Notification.type <$> last (notifications st') = Some NT_REMINDER) ∧
  (∃ r st1 r' st2,
     exec (borrowBook Scenario.env (Scenario.lend Scenario.admin "u1" "b1"))
          Scenario.quiet = (inr r, st1) ∧
     exec (returnBook Scenario.env (Scenario2.give_back "br-new")) st1
       = (inr r', st2) ∧
     books st2 = books Scenario.quiet).
Proof.
  destruct returnBook_returns_the_copy as [H1 H2]. split.
  - destruct (H1 Scenario.env (Scenario2.give_back "br-1")
                (Scenario2.one_out OVERDUE 120)
                (Borrowing.mk "u1" "b2" (100 * DAY_MS) (114 * DAY_MS)
                   None OVERDUE None)
                (Scenario.a_book "Emma" 1 0)) as [_ H].
    + vm_compute; reflexivity.
    + vm_compute; reflexivity.
    + destruct H as (r & st' & b' & book' & n & Hres & _ & _ & _ & Hk & Hc
                     & _ & Hn & _ & Ht).
      * discriminate.
      * exists r, st'. split; [exact Hres|].
        change (Borrowing.bookId _) with "b2" in Hk. rewrite Hk, Hn. cbn.
        rewrite Hc, Ht. split; reflexivity.
  - destruct (H2 Scenario.env Scenario.env
                (Scenario.lend Scenario.admin "u1" "b1")
                (Scenario2.give_back "br-new") Scenario.quiet
                (Scenario.a_book "Dune" 3 3) (Scenario.a_user "u1" USER))
      as (r & st1 & r' & st2 & b' & Hr1 & Hr2 & Hk & _).
    + unfold borrow_ok. repeat split; try (vm_compute; reflexivity).
      * rewrite holds_find. vm_compute. intros [x Hx]. discriminate Hx.
    + reflexivity.
    + by exists r, st1, r', st2.
Defined.

(** ** extendBorrowing *)

(** The run of extendBorrowing, check after check. *)
Lemma extendBorrowing_cases (env : Env) (req : ExtendReq) (st : State) :
  let bid := extend_borrowingId req in
  let res := exec (extendBorrowing env req) st in
  (additionalDays req = None →
   res = (inl (AppError VALIDATION_ERROR 400), st)) ∧
  (∀ d, additionalDays req = Some d →
   (d < 1 → res = (inl (AppError VALIDATION_ERROR 400), st)) ∧
   (1 ≤ d →
    (borrowings st !! bid = None →
     res = (inl (AppError BORROWING_NOT_FOUND 404), st)) ∧
    (∀ b, borrowings st !! bid = Some b →
     (Borrowing.status b ≠ BORROWED →
      res = (inl (AppError INVALID_STATUS 400), st)) ∧
     (Borrowing.status b = BORROWED →
      let b' := Borrowing.set_expectedReturnDate
                  (addDays (Borrowing.expectedReturnDate b) d) b in
      ∃ st',
        res = (inr (mkIncl bid b' (users st !! Borrowing.userId b)
                      (books st !! Borrowing.bookId b)), st') ∧
        borrowings st' = <[bid := b']> (borrowings st) ∧
        books st' = books st ∧ users st' = users st ∧
        notifications st' = notifications st ∧
        clock st' = clock st ∧ console st' = console st ∧
        length (auditLogs st') = S (length (auditLogs st)))))).
Proof.
  intros bid res.
  assert (Hres : res = exec (extendBorrowing env req) st) by done.
  clearbody res. unfold exec, extendBorrowing in Hres.
  change (extend_borrowingId req) with bid in Hres.
  split; [intros E; by rewrite E in Hres|].
  intros d E. rewrite E in Hres. split; intros Hd.
  { rewrite (proj2 (Z.ltb_lt d 1)), orb_true_r in Hres by done. done. }
  rewrite (proj2 (Z.eqb_neq d 0)), (proj2 (Z.ltb_ge d 1)) in Hres by lia.
  cbn in Hres.
  split; [intros Eb; by rewrite Eb in Hres|].
  intros b Eb. rewrite Eb in Hres. cbn in Hres.
  split; intros Hs.
  { by rewrite bool_decide_eq_true_2 in Hres. }
  rewrite bool_decide_eq_false_2 in Hres by (by intros []). cbn in Hres.
  unfold prisma_borrowing_update in Hres. rewrite Eb in Hres. cbn in Hres.
  unfold include in Hres. cbn in Hres.
  eexists. split; [exact Hres|]. cbn. rewrite !length_app. cbn.
  repeat split; try done; lia.
Qed.



(** ** updateBook *)




(** ** The inventory invariant *)

Lemma borrowBook_keeps_inventory (env : Env) (req : BorrowReq) (st : State) :
  inventory_ok st → inventory_ok (exec (borrowBook env req) st).2.
Proof.
  intros Hinv.
  destruct (borrowBook_inv env req st) as [[e He]|(book & user & Hok)].
  { by rewrite He. }
  destruct (borrowBook_success env req st book user Hok)
    as (st' & -> & Hk & _).
  destruct Hok as (_ & _ & E & Hc & _).
  unfold inventory_ok. cbn [snd]. rewrite Hk.
  apply map_Forall_insert_2; [|done].
  specialize (Hinv _ _ E). cbn in *. lia.
Qed.

Lemma extendBorrowing_keeps_books (env : Env) (req : ExtendReq) (st : State) :
  books (exec (extendBorrowing env req) st).2 = books st.
Proof.
  destruct (extendBorrowing_cases env req st) as [H1 H2].
  destruct (additionalDays req) as [d|] eqn:E; [|by rewrite H1].
  destruct (H2 d eq_refl) as [H3 H4].
  destruct (decide (d < 1)); [by rewrite H3|].
  destruct H4 as [H5 H6]; [lia|].
  destruct (borrowings st !! extend_borrowingId req) as [b|] eqn:Eb;
    [|by rewrite H5].
  destruct (H6 b eq_refl) as [H7 H8].
  destruct (decide (Borrowing.status b = BORROWED)) as [Hs|Hs];
    [|by rewrite H7].
  destruct (H8 Hs) as (st' & Hres & _ & Hk & _). by rewrite Hres.
Qed.

Lemma syncBookStatus_loop_keeps_inventory (l : list (string * Book.t)) :
  ∀ (updated : nat) (st : State),
    inventory_ok st →
    inventory_ok (exec (syncBookStatus_loop l updated) st).2.
Proof.
  induction l as [|[id book] l IH]; intros updated st Hinv; [done|].
  cbn [syncBookStatus_loop]. case_bool_decide; [|by apply IH].
  rewrite exec_bind, exec_await. unfold prisma_book_update.
  destruct (books st !! id) as [b|] eqn:E; [|done].
  rewrite isbn_conflict_same by done. apply IH.
  apply map_Forall_insert_2; [|done]. apply (Hinv _ _ E).
Qed.

Lemma syncBookStatus_keeps_inventory (st : State) :
  inventory_ok st → inventory_ok (exec syncBookStatus st).2.
Proof.
  intros Hinv. unfold syncBookStatus.
  rewrite exec_bind, exec_await. unfold prisma_book_findMany.
  rewrite exec_bind.
  pose proof (syncBookStatus_loop_keeps_inventory
                (map_to_list (filter (λ kv : string * Book.t,
                   Book.status kv.2 ≠ BK_MAINTENANCE ∧
                   Book.status kv.2 ≠ BK_LOST) (books st))) 0 st Hinv) as H.
  by destruct (exec (syncBookStatus_loop _ _) st) as [[e|n] st'].
Qed.

Lemma inventory_check_ok (st : State) :
  inventory_check st = true → inventory_ok st.
Proof.
  unfold inventory_check, inventory_ok. rewrite forallb_forall.
  intros H k b Hk. specialize (H (k, b)). cbn in H.
  rewrite andb_true_iff, !Z.leb_le in H. apply H.
  apply list_elem_of_In, elem_of_map_to_list. done.
Qed.

Ltac inventory_holds :=
  apply inventory_check_ok; vm_compute; reflexivity.
Ltac inventory_fails id :=
  let H := fresh in
  intros H;
  assert (H' := H id _ ltac:(vm_compute; reflexivity));
  cbn in H'; lia.

(** C1, the code at the inputs where it breaks the invariant.  In a
    catalogue that satisfies [0 ≤ copiesAvailable ≤ copiesTotal]:
    (1) updateBook with a body that gives only [copiesAvailable = 5] stores
    5 for a book of 3 copies; (2) updateBook with [copiesTotal = 3] and
    [copiesAvailable = -2] passes the validation and stores -2; (3) after a
    borrow of the only copy of a book, an updateBook that sets both counters
    to 1 and the return of the borrowing leave 2 copies available of 1. *)
Theorem inventory_invariant_broken :
  inventory_ok Scenario.quiet ∧
  (∃ book st',
     exec (updateBook Scenario.env (Scenario3.set_copies "b1" None (Some 5)))
          Scenario.quiet = (inr book, st') ∧
     books st' !! "b1" = Some book ∧
     Book.copiesAvailable book = 5 ∧ Book.copiesTotal book = 3 ∧
     ¬ inventory_ok st') ∧
  (∃ book st',
     exec (updateBook Scenario.env
             (Scenario3.set_copies "b1" (Some 3) (Some (-2))))
          Scenario.quiet = (inr book, st') ∧
     books st' !! "b1" = Some book ∧
     Book.copiesAvailable book = -2 ∧ ¬ inventory_ok st') ∧
  (∃ r1 st1 book2 st2 r3 st3 book,
     exec (borrowBook Scenario.env (Scenario.lend Scenario.admin "u1" "b2"))
          Scenario.quiet = (inr r1, st1) ∧
     inventory_ok st1 ∧
     exec (updateBook Scenario.env
             (Scenario3.set_copies "b2" (Some 1) (Some 1))) st1
       = (inr book2, st2) ∧
     inventory_ok st2 ∧
     exec (returnBook Scenario.env (Scenario2.give_back "br-new")) st2
       = (inr r3, st3) ∧
     books st3 !! "b2" = Some book ∧
     Book.copiesAvailable book = 2 ∧ Book.copiesTotal book = 1 ∧
     ¬ inventory_ok st3).
Proof.
  assert (Hq : inventory_ok Scenario.quiet).
  { inventory_holds. }
  split; [exact Hq|]. split; [|split].
  - eexists _, _. split; [vm_compute; reflexivity|].
    split; [vm_compute; reflexivity|]. split; [reflexivity|].
    split; [reflexivity|].
    inventory_fails "b1".
  - eexists _, _. split; [vm_compute; reflexivity|].
    split; [vm_compute; reflexivity|]. split; [reflexivity|].
    inventory_fails "b1".
  - eexists _, _, _, _, _, _, _.
    split; [vm_compute; reflexivity|].
    split; [inventory_holds|].
    split; [vm_compute; reflexivity|].
    split; [inventory_holds|].
    split; [vm_compute; reflexivity|].
    split; [vm_compute; reflexivity|]. split; [reflexivity|].
    split; [reflexivity|].
    inventory_fails "b2".
Qed.

(** ** checkOverdueBooks *)

Lemma exec_try_catch {A} (p : Prog A) (h : Err → Prog A) (st : State) :
  exec (try_catch p h) st =
  match exec p st with
  | (inl e, st') => exec (h e) st'
  | (inr a, st') => (inr a, st')
  end.
Proof.
  unfold exec. revert st.
  induction p as [a|e|X op k IH|X g k IH]; intros st; cbn; try done.
  - destruct (op st) as [r st']. apply IH.
  - destruct (g st) as [x st']. apply IH.
Qed.

Lemma insert_as_alter {V} (f : V → V) (k : string) (v : V)
    (m : gmap string V) :
  m !! k = Some v → <[k := f v]> m = alter f k m.
Proof.
  intros E. apply map_eq. intros j. rewrite lookup_alter, lookup_insert.
  destruct (decide (k = j)) as [<-|]; [by rewrite E|done].
Qed.

(** One turn of the loop of the sweep, run alone. *)
Lemma sweep_body_exec (env : Env) (x : BorrowingIncl) (st : State)
    (b : Borrowing.t) :
  borrowings st !! id x = Some b →
  is_Some (book x) → is_Some (user x) →
  exec (checkOverdueBooks_body env x) st =
    (inr tt,
     let st1 :=
       with_borrowings (alter (Borrowing.set_status OVERDUE) (id x)) st in
     match head (filter (λ n,
             Notification.userId n = Borrowing.userId (row x) ∧
             Notification.type n = NT_OVERDUE ∧
             startOfDay env (clock st) ≤ Notification.createdAt n ∧
             contains (title_of x) (Notification.message n) = true)
           (notifications st)) with
     | Some _ => st1
     | None =>
         add_console (sent_event x)
           (add_notification (overdue_notification (clock st) x) st1)
     end).
Proof.
  intros Eb [bk Ebk] [us Eus].
  unfold with_borrowings.
  rewrite <- (insert_as_alter (Borrowing.set_status OVERDUE) _ b) by done.
  unfold checkOverdueBooks_body, sent_event, overdue_notification,
    title_of, email_of.
  rewrite exec_bind, exec_await. unfold prisma_borrowing_update.
  rewrite Eb, Ebk, Eus. cbn.
  by destruct (head _).
Qed.

(** The loop of the sweep, run alone: it flags the borrowings of [l] and
    issues the notifications of [notified]. *)
Lemma sweep_loop_exec (env : Env) (l : list BorrowingIncl) : ∀ st,
  (∀ x, x ∈ l → is_Some (borrowings st !! id x) ∧
                 is_Some (book x) ∧ is_Some (user x)) →
  exec (for_of l (checkOverdueBooks_body env)) st =
    (inr tt,
     mkState (books st) (users st)
       (foldl (λ m x, alter (Borrowing.set_status OVERDUE) (id x) m)
              (borrowings st) l)
       (notifications st ++
          (overdue_notification (clock st) <$>
             notified env (clock st) (notifications st) l))
       (auditLogs st)
       (console st ++
          (sent_event <$> notified env (clock st) (notifications st) l))
       (clock st)).
Proof.
  induction l as [|x l IH]; intros st Hl.
  { cbn. rewrite !app_nil_r. by destruct st. }
  destruct (Hl x) as ([b Eb] & Hbk & Hus); [left|].
  cbn [for_of notified]. rewrite exec_bind.
  rewrite (sweep_body_exec env x st b) by done. cbn zeta.
  assert (Hl' : ∀ y, y ∈ l →
    is_Some (alter (Borrowing.set_status OVERDUE) (id x) (borrowings st)
             !! id y) ∧ is_Some (book y) ∧ is_Some (user y)).
  { intros y Hy. destruct (Hl y) as (Hy1 & Hy2 & Hy3); [by right|].
    split; [|done]. rewrite lookup_alter. case_decide; [|done].
    subst. by apply fmap_is_Some. }
  destruct (head _) as [n|].
  - rewrite IH by done. done.
  - rewrite IH by done. cbn. by rewrite <- !app_assoc.
Qed.

(** *** Text *)






(** *** The notifications the loop issues *)







(** *** The whole tick *)

Lemma exec_sync {X} (f : State → X * State) (st : State) :
  exec (sync f) st = (inr (f st).1, (f st).2).
Proof. unfold exec. cbn. by destruct (f st). Qed.

Lemma foldl_alter_lookup {X V} (f : V → V) (key : X → string) (l : list X) :
  (∀ v, f (f v) = f v) →
  ∀ (m : gmap string V) k,
    foldl (λ m x, alter f (key x) m) m l !! k =
    if decide (k ∈ key <$> l) then f <$> m !! k else m !! k.
Proof.
  intros Hf. induction l as [|x l IH]; intros m k; cbn.
  { rewrite decide_False; [done|]. apply not_elem_of_nil. }
  rewrite IH, lookup_alter.
  destruct (decide (k ∈ key x :: (key <$> l))) as [H|H];
    rewrite elem_of_cons in H;
    destruct (decide (k ∈ key <$> l)), (decide (key x = k));
    try done; try (destruct H; by auto).
  all: subst k; destruct (m !! key x); cbn; [|done..]; by rewrite ?Hf.
Qed.

Lemma overdue_now_ids (st : State) (k : string) :
  k ∈ id <$> overdue_now st ↔
  ∃ b, borrowings st !! k = Some b ∧ is_overdue (clock st) b.
Proof.
  unfold overdue_now. rewrite <- list_fmap_compose.
  change (id ∘ include st) with (@fst string Borrowing.t).
  rewrite list_elem_of_fmap. split.
  - intros ([k' b] & -> & H%elem_of_map_to_list%map_lookup_filter_Some).
    exists b. done.
  - intros (b & Hb & Hov). exists (k, b). split; [done|].
    apply elem_of_map_to_list, map_lookup_filter_Some. done.
Qed.

Lemma overdue_now_elem (st : State) (x : BorrowingIncl) :
  x ∈ overdue_now st →
  borrowings st !! id x = Some (row x) ∧
  is_overdue (clock st) (row x) ∧
  user x = users st !! Borrowing.userId (row x) ∧
  book x = books st !! Borrowing.bookId (row x).
Proof.
  unfold overdue_now. rewrite list_elem_of_fmap.
  intros ([k b] & -> & H%elem_of_map_to_list%map_lookup_filter_Some).
  cbn. destruct H as [Hk Hov]. done.
Qed.

(** A tick of the sweep, on a store that serves every call and whose
    foreign keys resolve. *)
Lemma checkOverdueBooks_exec (env : Env) (st : State) :
  (∀ x, x ∈ overdue_now st → is_Some (book x) ∧ is_Some (user x)) →
  let sent := notified env (clock st) (notifications st) (overdue_now st) in
  exec (checkOverdueBooks env) st =
    (inr tt,
     mkState (books st) (users st)
       (mark_overdue (clock st) <$> borrowings st)
       (notifications st ++ (overdue_notification (clock st) <$> sent))
       (auditLogs st)
       (console st ++ (sent_event <$> sent) ++
          [LogOverdueCompleted (length (overdue_now st))])
       (clock st)).
Proof.
  intros Hrefs sent. unfold checkOverdueBooks.
  rewrite exec_try_catch, exec_bind. unfold newDate. rewrite exec_sync.
  cbn [fst snd]. rewrite exec_bind, exec_await.
  unfold prisma_borrowing_findMany. fold (overdue_now st).
  rewrite exec_bind, sweep_loop_exec.
  2:{ intros x Hx. split; [|by apply Hrefs].
      apply overdue_now_elem in Hx as (Hk & _). by rewrite Hk. }
  unfold console_log. rewrite exec_sync. unfold add_console.
  cbn [fst snd books users borrowings notifications auditLogs console clock].
  fold (overdue_now st). fold sent.
  f_equal. f_equal; [|by rewrite <- app_assoc].
  apply map_eq. intros k. rewrite lookup_fmap.
  rewrite foldl_alter_lookup by done.
  match goal with
  | |- context [decide (k ∈ ?L)] => change L with (id <$> overdue_now st)
  end.
  destruct (decide (k ∈ id <$> overdue_now st)) as [Hk|Hk].
  - apply overdue_now_ids in Hk as (b & Hb & Hov). rewrite Hb. cbn.
    unfold mark_overdue. by rewrite decide_True.
  - destruct (borrowings st !! k) as [b|] eqn:Hb; [|done]. cbn.
    unfold mark_overdue. rewrite decide_False; [done|].
    intros Hov. apply Hk, overdue_now_ids. eauto.
Qed.

Lemma refs_ok_overdue_now (st : State) :
  refs_ok st →
  ∀ x, x ∈ overdue_now st → is_Some (book x) ∧ is_Some (user x).
Proof.
  intros Hrefs x Hx. apply overdue_now_elem in Hx as (Hk & _ & Hu & Hb).
  rewrite Hu, Hb. destruct (Hrefs _ _ Hk). done.
Qed.

Lemma overdue_now_nil (st : State) :
  (∀ k b, borrowings st !! k = Some b → ¬ is_overdue (clock st) b) →
  overdue_now st = [].
Proof.
  intros Hno. destruct (overdue_now st) as [|x l] eqn:E; [done|].
  assert (Hx : x ∈ overdue_now st) by (rewrite E; left).
  apply overdue_now_elem in Hx as (Hk & Hov & _). by destruct (Hno _ _ Hk).
Qed.


Lemma refs_check_ok (st : State) : refs_check st = true → refs_ok st.
Proof.
  unfold refs_check, refs_ok. rewrite forallb_forall.
  intros H k b Hk. specialize (H (k, b)). cbn in H.
  rewrite andb_true_iff, !bool_decide_eq_true in H. apply H.
  apply list_elem_of_In, elem_of_map_to_list. done.
Qed.



(** ** Failures of the store during a tick *)

Lemma run_never_throws {A} (p : Prog A) :
  never_throws p → ∀ outage st, ∃ a, (run p outage st).1 = inr a.
Proof.
  induction p as [a|e|X op k IH|X g k IH]; cbn; intros Hp outage st.
  - by exists a.
  - done.
  - destruct outage as [|[] o]; [destruct (op st)| |destruct (op st)];
      by apply IH.
  - destruct (g st). by apply IH.
Qed.

Lemma try_catch_never_throws {A} (p : Prog A) (h : Err → Prog A) :
  (∀ e, never_throws (h e)) → never_throws (try_catch p h).
Proof.
  intros Hh. induction p as [a|e|X op k IH|X g k IH]; cbn; auto.
Qed.

Lemma checkOverdueBooks_never_throws (env : Env) :
  never_throws (checkOverdueBooks env).
Proof. apply try_catch_never_throws. intros e. by cbn. Qed.

Lemma checkOverdueBooks_resolves (env : Env) (outage : list bool)
    (st : State) :
  (run (checkOverdueBooks env) outage st).1 = inr tt.
Proof.
  destruct (run_never_throws _ (checkOverdueBooks_never_throws env) outage st)
    as [[] H]. done.
Qed.

Lemma run_bind {A B} (p : Prog A) (f : A → Prog B) (outage : list bool)
    (st : State) :
  run (p ≫= f) outage st =
  match run p outage st with
  | (inl e, st') => (inl e, st')
  | (inr a, st') => run (f a) (rest p outage st) st'
  end.
Proof.
  revert outage st.
  induction p as [a|e|X op k IH|X g k IH]; intros outage st; cbn; try done.
  - destruct outage as [|[] o]; [destruct (op st)| |destruct (op st)];
      apply IH.
  - destruct (g st). apply IH.
Qed.

Lemma run_try_catch {A} (p : Prog A) (h : Err → Prog A) (outage : list bool)
    (st : State) :
  run (try_catch p h) outage st =
  match run p outage st with
  | (inl e, st') => run (h e) (rest p outage st) st'
  | (inr a, st') => (inr a, st')
  end.
Proof.
  revert outage st.
  induction p as [a|e|X op k IH|X g k IH]; intros outage st; cbn; try done.
  - destruct outage as [|[] o]; [destruct (op st)| |destruct (op st)];
      apply IH.
  - destruct (g st). apply IH.
Qed.

(** An exception in the loop ends the loop. *)
Lemma run_for_of_throw {X} (body : X → Prog unit) (la lb : list X) :
  ∀ outage st e,
    (run (for_of la body) outage st).1 = inl e →
    run (for_of (la ++ lb) body) outage st = run (for_of la body) outage st.
Proof.
  induction la as [|x la IH]; intros outage st e; [done|].
  cbn [for_of app]. rewrite !run_bind.
  destruct (run (body x) outage st) as [[e'|[]] st']; [done|]. apply IH.
Qed.

(** A turn of the loop of the sweep writes to no borrowing but its own,
    whatever the store rejects. *)
Lemma sweep_body_frame (env : Env) (x : BorrowingIncl) (outage : list bool)
    (st : State) (k : string) :
  k ≠ id x →
  borrowings (run (checkOverdueBooks_body env x) outage st).2 !! k
    = borrowings st !! k.
Proof.
  intros Hk. unfold checkOverdueBooks_body, prisma_borrowing_update.
  repeat first
    [ progress cbn
    | match goal with
      | |- context [match ?o with [] => _ | _ :: _ => _ end] =>
          is_var o; destruct o as [|[] ?]
      | |- context [match borrowings ?s !! ?i with _ => _ end] =>
          destruct (borrowings s !! i)
      | |- context [prop_of ?o _] => destruct o
      | |- context [match head ?l with _ => _ end] => destruct (head l)
      end ].
  all: by rewrite ?lookup_insert_ne.
Qed.

Lemma sweep_loop_frame (env : Env) (l : list BorrowingIncl) (k : string) :
  k ∉ id <$> l →
  ∀ outage st,
    borrowings (run (for_of l (checkOverdueBooks_body env)) outage st).2 !! k
      = borrowings st !! k.
Proof.
  induction l as [|x l IH]; intros Hk outage st; [done|].
  rewrite fmap_cons, not_elem_of_cons in Hk. destruct Hk as [Hx Hl].
  cbn [for_of]. rewrite run_bind.
  pose proof (sweep_body_frame env x outage st k Hx) as Hb.
  destruct (run (checkOverdueBooks_body env x) outage st) as [[e|[]] st'];
    [done|].
  rewrite IH by done. done.
Qed.

Lemma overdue_now_NoDup (st : State) : NoDup (id <$> overdue_now st).
Proof.
  unfold overdue_now. rewrite <- list_fmap_compose.
  change (id ∘ include st) with (@fst string Borrowing.t).
  apply NoDup_fst_map_to_list.
Qed.

(** C8 (as the code has it).  The promise of a tick never rejects,
    whatever calls the store rejects during it, so that the timer set by
    startOverdueChecker runs every firing.  An exception inside the loop is
    caught by the one try/catch of the tick, outside the loop, and ends the
    tick: when the loop fails while it processes the borrowings [la] of the
    overdue set [la ++ lb], the tick writes its error line and stops, and
    the borrowings [lb] are left as they were, BORROWED, to be found by the
    next tick. *)
Theorem checkOverdueBooks_failure_ends_the_tick :
  (∀ (env : Env) (outage : list bool) (st : State),
     (run (checkOverdueBooks env) outage st).1 = inr tt) ∧
  (∀ (env : Env) (first : list bool) (firings : list (Z * list bool))
     (st : State),
     (startOverdueChecker env first firings st).1 = inr tt) ∧
  (∀ (env : Env) (outage : list bool) (st : State)
     (la lb : list BorrowingIncl) (e : Err),
     overdue_now st = la ++ lb →
     (run (for_of la (checkOverdueBooks_body env)) outage st).1 = inl e →
     run (checkOverdueBooks env) (false :: outage) st
       = (inr tt,
          add_console LogOverdueError
            (run (for_of la (checkOverdueBooks_body env)) outage st).2) ∧
     ∀ y, y ∈ lb →
       borrowings (run (checkOverdueBooks env) (false :: outage) st).2 !! id y
         = Some (row y) ∧
       Borrowing.status (row y) = BORROWED).
Proof.
  split; [exact checkOverdueBooks_resolves|]. split.
  - intros env first firings st. unfold startOverdueChecker.
    pose proof (checkOverdueBooks_resolves env first
                  (add_console LogCheckerStarted st)) as H0.
    destruct (run _ first _) as [[e|[]] st0]; [done|]. clear H0.
    revert st0. induction firings as [|[t o] firings IH]; intros st0; [done|].
    cbn [setInterval].
    pose proof (checkOverdueBooks_resolves env o (at_time t st0)) as H1.
    destruct (run _ o _) as [[e|[]] st1]; [done|]. apply IH.
  - intros env outage st la lb e Hl He.
    assert (Hrun : run (checkOverdueBooks env) (false :: outage) st
      = (inr tt,
         add_console LogOverdueError
           (run (for_of la (checkOverdueBooks_body env)) outage st).2)).
    { unfold checkOverdueBooks. rewrite run_try_catch, run_bind. cbn.
      change (include st <$> map_to_list _) with (overdue_now st).
      rewrite Hl, run_bind, (run_for_of_throw _ la lb _ _ e He).
      destruct (run (for_of la _) outage st) as [[e'|[]] st']; done. }
    split; [exact Hrun|]. intros y Hy. rewrite Hrun. cbn.
    assert (Hin : y ∈ overdue_now st).
    { rewrite Hl. apply elem_of_app. by right. }
    apply overdue_now_elem in Hin as (Hk & [Hs _] & _).
    split; [|done]. rewrite sweep_loop_frame; [done|].
    pose proof (overdue_now_NoDup st) as Hnd.
    rewrite Hl, fmap_app in Hnd. apply NoDup_app in Hnd as (_ & Hnd & _).
    intros Hla. apply (Hnd _ Hla). by apply list_elem_of_fmap_2.
Qed.

Lemma checkOverdueBooks_failure_ends_the_tick_witness :
  run (checkOverdueBooks Scenario.env) [false; true] Scenario4.two_late
    = (inr tt, add_console LogOverdueError Scenario4.two_late).
Proof.
  destruct checkOverdueBooks_failure_ends_the_tick as (_ & _ & H).
  destruct (H Scenario.env [true] Scenario4.two_late
              (take 1 (overdue_now Scenario4.two_late))
              (drop 1 (overdue_now Scenario4.two_late)) StoreUnavailable)
    as [Hrun _].
  - by rewrite take_drop.
  - vm_compute. reflexivity.
  - rewrite Hrun. vm_compute. reflexivity.
Defined.

(** C8, the claim as the specification states it, fails: two borrowings
    are overdue, the store rejects the update of the first one the tick
    processes, and the other one is not processed: after the tick both are
    still BORROWED and no notification exists. *)
Lemma sweep_failure_skips_the_other_borrowings :
  length (overdue_now Scenario4.two_late) = 2%nat ∧
  let st' := (run (checkOverdueBooks Scenario.env) [false; true]
                  Scenario4.two_late).2 in
  Borrowing.status <$> borrowings st' !! "br-1" = Some BORROWED ∧
  Borrowing.status <$> borrowings st' !! "br-2" = Some BORROWED ∧
  notifications st' = [] ∧
  console st' = [LogOverdueError].
Proof. vm_compute. repeat split; reflexivity. Qed.

(** ** Handlers running at the same time *)

Lemma turn_finished {A} (p : Prog A) (st : State) :
  is_Some (outcome p) → turn p st = (p, st).
Proof. destruct p; cbn; try done; by intros [? ?]. Qed.

Lemma turns_finished {A} (n : nat) (p : Prog A) (st : State) :
  is_Some (outcome p) → turns n p st = (p, st).
Proof.
  intros H. induction n as [|n IH]; [done|].
  cbn. by rewrite turn_finished.
Qed.

(** The two readings of a program agree: a handler that takes all the
    turns ends with the outcome and in the state of its run alone. *)
Lemma exec_turns {A} (p : Prog A) (st : State) :
  ∃ n, outcome (turns n p st).1 = Some (exec p st).1 ∧
       (turns n p st).2 = (exec p st).2.
Proof.
  unfold exec. revert st.
  induction p as [a|e|X op k IH|X g k IH]; intros st.
  - by exists 0%nat.
  - by exists 0%nat.
  - cbn [run tail]. destruct (op st) as [r st1] eqn:E.
    destruct (IH r st1) as [n Hn]. exists (S n). cbn. by rewrite E.
  - cbn [run]. destruct (g st) as [x st1] eqn:E.
    destruct (IH x st1) as [[|n] Hn].
    + exists 1%nat. cbn in *. rewrite E.
      destruct Hn as [Ho Hs].
      rewrite turn_finished by (by rewrite Ho). done.
    + exists (S n). cbn in *. by rewrite E.
Qed.

Lemma interleave_app {A} (s1 s2 : list nat) (ps : list (Prog A))
    (st : State) :
  interleave (s1 ++ s2) ps st =
  interleave s2 (interleave s1 ps st).1 (interleave s1 ps st).2.
Proof.
  revert ps st. induction s1 as [|i s1 IH]; intros ps st; [done|].
  cbn. destruct (ps !! i) as [p|]; [|apply IH].
  destruct (turn p st). apply IH.
Qed.

(** A handler that takes [n] turns in a row. *)
Lemma interleave_replicate {A} (n i : nat) (ps : list (Prog A))
    (p : Prog A) (st : State) :
  ps !! i = Some p →
  interleave (replicate n i) ps st
    = (<[i := (turns n p st).1]> ps, (turns n p st).2).
Proof.
  revert ps p st. induction n as [|n IH]; intros ps p st Hp; cbn.
  { by rewrite list_insert_id. }
  rewrite Hp. destruct (turn p st) as [p' st'].
  rewrite (IH _ p') by (apply list_lookup_insert_eq; by eapply lookup_lt_Some).
  by rewrite list_insert_insert_eq.
Qed.

Lemma borrower_resolved (req : BorrowReq) :
  (on_behalf req → actor_role (borrow_user req) = ADMIN) →
  (if negb (truthy (borrow_userId req)) then
     mret (actor_id (borrow_user req))
   else
     let userId := default EmptyString (borrow_userId req) in
     if bool_decide (userId ≠ actor_id (borrow_user req))
        && bool_decide (actor_role (borrow_user req) ≠ ADMIN)
     then Throw (AppError FORBIDDEN 403)
     else mret userId) = (mret (borrower req) : Prog string).
Proof.
  unfold on_behalf, borrower. intros Hp.
  destruct (truthy (borrow_userId req)); [|done]. cbn.
  case_bool_decide as H1; [|done]. cbn.
  case_bool_decide as H2; [|done]. destruct H2. by apply Hp.
Qed.

(** Two borrows of the last copy of a book, each of which would succeed
    alone, both succeed when they take turns at the store. *)
Lemma borrowBook_race (env1 env2 : Env) (req1 req2 : BorrowReq) (st : State)
    (book : Book.t) (user1 user2 : User.t) :
  borrow_ok env1 req1 st book user1 →
  borrow_ok env2 req2 st book user2 →
  book_of req2 = book_of req1 →
  uuid env1 ≠ uuid env2 →
  ∃ r1 r2 st',
    interleave take_turns [borrowBook env1 req1; borrowBook env2 req2] st
      = ([Ret r1; Ret r2], st') ∧
    books st' !! book_of req1 =
      Some (Book.set_copiesAvailable (λ n, n - 1 - 1) book) ∧
    borrowings st' !! uuid env1 = Some (borrowed_row env1 req1 st) ∧
    borrowings st' !! uuid env2 = Some (borrowed_row env2 req2 st).
Proof.
  intros (Hp1 & Hb1 & E1 & Hc1 & Eu1 & Ha1 & Hh1 & Hm1 & Ei1)
         (Hp2 & Hb2 & E2 & Hc2 & Eu2 & Ha2 & Hh2 & Hm2 & Ei2) Hsame Hne.
  rewrite holds_find in Hh1, Hh2.
  unfold borrowBook. rewrite !borrower_resolved by done.
  rewrite Hb1, Hb2. unfold take_turns.
  change (default EmptyString (borrow_bookId req1)) with (book_of req1).
  change (default EmptyString (borrow_bookId req2)) with (book_of req2).
  cbn. rewrite E1. cbn. rewrite E2. cbn.
  rewrite (proj2 (Z.leb_gt _ _) Hc1). cbn.
  rewrite Eu1. cbn. rewrite Eu2. cbn.
  rewrite !bool_decide_eq_false_2 by (by intros []). cbn.
  rewrite (bool_decide_eq_false_2 _ Hh1). cbn.
  rewrite (bool_decide_eq_false_2 _ Hh2). cbn.
  rewrite !count_borrowed_eq.
  fold (max_books env1). fold (max_books env2).
  rewrite (proj2 (Z.leb_gt _ _) Hm1). cbn.
  rewrite (proj2 (Z.leb_gt _ _) Hm2). cbn.
  unfold prisma_borrowing_create. rewrite Ei1. cbn.
  rewrite lookup_insert_ne, Ei2 by done. cbn.
  unfold prisma_book_update. cbn. rewrite E1.
  rewrite isbn_conflict_same by done. cbn.
  rewrite Hsame, lookup_insert_eq.
  rewrite isbn_conflict_same by done. cbn.
  eexists _, _, _. split; [reflexivity|]. cbn.
  rewrite insert_insert_eq, !lookup_insert_eq.
  rewrite lookup_insert_ne, lookup_insert_eq by done.
  unfold borrowed_row, borrow_days. rewrite Hsame. done.
Qed.

(** C2 (as the code has it).  When two borrows of a book with exactly one
    copy available run one after the other, the first, whose checks pass,
    succeeds, the second, once past the privilege check, fails with
    NO_COPIES_AVAILABLE and changes nothing, and copiesAvailable ends at 0.
    The checks and the decrement of a borrow are separate store calls: when
    two such borrows, each of which would succeed alone, take turns at the
    store call by call, both succeed and copiesAvailable ends at -1. *)
Theorem borrowBook_last_copy
    (env1 env2 : Env) (req1 req2 : BorrowReq) (st : State)
    (book : Book.t) (user1 : User.t) :
  borrow_ok env1 req1 st book user1 →
  Book.copiesAvailable book = 1 →
  book_of req2 = book_of req1 →
  (truthy (borrow_bookId req2) = true →
   (on_behalf req2 → actor_role (borrow_user req2) = ADMIN) →
   ∃ r st1 book1,
     exec (borrowBook env1 req1) st = (inr r, st1) ∧
     exec (borrowBook env2 req2) st1
       = (inl (AppError NO_COPIES_AVAILABLE 400), st1) ∧
     books st1 !! book_of req1 = Some book1 ∧
     Book.copiesAvailable book1 = 0 ∧
     ∃ n1 n2 q1 q2,
       interleave (replicate n1 0%nat ++ replicate n2 1%nat)
                  [borrowBook env1 req1; borrowBook env2 req2] st
         = ([q1; q2], st1) ∧
       outcome q1 = Some (inr r) ∧
       outcome q2 = Some (inl (AppError NO_COPIES_AVAILABLE 400))) ∧
  (∀ user2,
     borrow_ok env2 req2 st book user2 →
     uuid env1 ≠ uuid env2 →
     ∃ r1 r2 st' book',
       interleave take_turns [borrowBook env1 req1; borrowBook env2 req2] st
         = ([Ret r1; Ret r2], st') ∧
       books st' !! book_of req1 = Some book' ∧
       Book.copiesAvailable book' = -1).
Proof.
  intros Hok Hone Hsame. split.
  - intros Hb2 Hp2.
    destruct (borrowBook_success env1 req1 st book user1 Hok)
      as (st1 & Hres1 & Hk1 & _).
    assert (Ek : books st1 !! book_of req2
                 = Some (Book.set_copiesAvailable (λ n, n - 1) book)).
    { by rewrite Hsame, Hk1, lookup_insert_eq. }
    assert (Hres2 : exec (borrowBook env2 req2) st1
                    = (inl (AppError NO_COPIES_AVAILABLE 400), st1)).
    { destruct (borrowBook_cases env2 req2 st1) as [_ H2].
      destruct (H2 Hp2) as [_ H4]. destruct (H4 Hb2) as [_ H6].
      destruct (H6 _ Ek) as [H7 _]. apply H7. cbn. lia. }
    eexists _, st1, _. split; [exact Hres1|]. split; [exact Hres2|].
    split; [by rewrite <- Hsame|]. split; [cbn; lia|].
    destruct (exec_turns (borrowBook env1 req1) st) as (n1 & Ho1 & Hs1).
    destruct (exec_turns (borrowBook env2 req2) st1) as (n2 & Ho2 & Hs2).
    rewrite Hres1 in Ho1, Hs1. rewrite Hres2 in Ho2, Hs2.
    cbn in Ho1, Hs1, Ho2, Hs2.
    exists n1, n2. eexists _, _. split; [|split; [exact Ho1|exact Ho2]].
    rewrite interleave_app.
    rewrite (interleave_replicate n1 0 _ (borrowBook env1 req1)) by done.
    cbn [fst snd]. rewrite Hs1.
    rewrite (interleave_replicate n2 1 _ (borrowBook env2 req2)) by done.
    rewrite Hs2. done.
  - intros user2 Hok2 Hne.
    destruct (borrowBook_race env1 env2 req1 req2 st book user1 user2)
      as (r1 & r2 & st' & Hi & Hk & _); try done.
    exists r1, r2, st'. eexists. split; [exact Hi|]. split; [exact Hk|].
    cbn. lia.
Qed.

Lemma borrowBook_last_copy_witness :
  (∃ r st1,
     exec (borrowBook Scenario5.env_a Scenario5.req_a) Scenario.quiet
       = (inr r, st1) ∧
     exec (borrowBook Scenario5.env_b Scenario5.req_b) st1
       = (inl (AppError NO_COPIES_AVAILABLE 400), st1) ∧
     Book.copiesAvailable <$> books st1 !! "b2" = Some 0) ∧
  (∃ r1 r2 st',
     interleave take_turns
       [borrowBook Scenario5.env_a Scenario5.req_a;
        borrowBook Scenario5.env_b Scenario5.req_b] Scenario.quiet
       = ([Ret r1; Ret r2], st') ∧
     Book.copiesAvailable <$> books st' !! "b2" = Some (-1)).
Proof.
  assert (Hok : ∀ env req u,
    (env, req, u) = (Scenario5.env_a, Scenario5.req_a, "u1") ∨
    (env, req, u) = (Scenario5.env_b, Scenario5.req_b, "u2") →
    borrow_ok env req Scenario.quiet (Scenario.a_book "Emma" 1 1)
              (Scenario.a_user u USER)).
  { intros env req u [[= -> -> ->]|[= -> -> ->]];
      (unfold borrow_ok; repeat split; try (vm_compute; reflexivity);
       rewrite holds_find; vm_compute; intros [x Hx]; discriminate Hx). }
  destruct (borrowBook_last_copy
              Scenario5.env_a Scenario5.env_b Scenario5.req_a Scenario5.req_b
              Scenario.quiet (Scenario.a_book "Emma" 1 1)
              (Scenario.a_user "u1" USER)) as [H1 H2].
  - apply Hok. by left.
  - reflexivity.
  - reflexivity.
  - split.
    + destruct H1 as (r & st1 & book1 & Hr1 & Hr2 & Hk & Hc & _).
      * reflexivity.
      * reflexivity.
      * exists r, st1. split; [exact Hr1|]. split; [exact Hr2|].
        change (book_of Scenario5.req_a) with "b2" in Hk. rewrite Hk. cbn.
        by rewrite Hc.
    + destruct (H2 (Scenario.a_user "u2" USER))
        as (r1 & r2 & st' & book' & Hi & Hk & Hc).
      * apply Hok. by right.
      * vm_compute. discriminate.
      * exists r1, r2, st'. split; [exact Hi|].
        change (book_of Scenario5.req_a) with "b2" in Hk. rewrite Hk. cbn.
        by rewrite Hc.
Defined.

(** C2, the claim as the specification states it, fails: one copy of Emma
    is available, two borrows of it take turns at the store, call by call,
    and both succeed; copiesAvailable ends at -1. *)
Lemma concurrent_borrows_both_take_the_last_copy :
  Book.copiesAvailable <$> books Scenario.quiet !! "b2" = Some 1 ∧
  ∃ r1 r2 st',
    interleave take_turns
      [borrowBook Scenario5.env_a Scenario5.req_a;
       borrowBook Scenario5.env_b Scenario5.req_b] Scenario.quiet
      = ([Ret r1; Ret r2], st') ∧
    Book.copiesAvailable <$> books st' !! "b2" = Some (-1) ∧
    Borrowing.status <$> borrowings st' !! "br-a" = Some BORROWED ∧
    Borrowing.status <$> borrowings st' !! "br-b" = Some BORROWED.
Proof.
  split; [vm_compute; reflexivity|].
  eexists _, _, _. split; [vm_compute; reflexivity|].
  vm_compute. repeat split; reflexivity.
Qed.

(** * Further properties of the code *)

(** ** Counting the rows of a table that satisfy a condition *)

Section size_filter.
Context {V : Type} (P : string * V → Prop) `{!∀ x, Decision (P x)}.

Lemma size_filter_insert_new (k : string) (v : V) (m : gmap string V) :
  m !! k = None →
  size (filter P (<[k:=v]> m)) =
  if decide (P (k, v)) then S (size (filter P m)) else size (filter P m).
Proof.
  intros Hk. case_decide as HP.
  - rewrite map_filter_insert_True by done.
    apply map_size_insert_None, map_lookup_filter_None. by left.
  - rewrite map_filter_insert_not'; [done..|]. intros y. by rewrite Hk.
Qed.

Lemma size_filter_insert_same (k : string) (v0 v : V) (m : gmap string V) :
  m !! k = Some v0 → (P (k, v0) ↔ P (k, v)) →
  size (filter P (<[k:=v]> m)) = size (filter P m).
Proof.
  intros Hk Hiff. destruct (decide (P (k, v))) as [HP|HP].
  - rewrite map_filter_insert_True by done.
    apply map_size_insert_Some. exists v0.
    apply map_lookup_filter_Some. split; [done|]. by apply Hiff.
  - rewrite map_filter_insert_not'; [done..|].
    intros y. rewrite Hk. intros [= <-]. by rewrite Hiff.
Qed.

Lemma size_filter_insert_drop (k : string) (v0 v : V) (m : gmap string V) :
  m !! k = Some v0 → P (k, v0) → ¬ P (k, v) →
  S (size (filter P (<[k:=v]> m))) = size (filter P m).
Proof.
  intros Hk H0 HP.
  assert (Hf : filter P m !! k = Some v0).
  { by apply map_lookup_filter_Some. }
  rewrite map_filter_insert_False, map_filter_delete by done.
  rewrite map_size_delete_Some by done.
  destruct (size (filter P m)) as [|n] eqn:E; [|done].
  apply map_size_empty_iff in E. by rewrite E in Hf.
Qed.
End size_filter.

(** ** The ledger of copies *)

Lemma is_Some_insert_existing {V} (m : gmap string V) (k j : string)
    (v0 v : V) :
  m !! k = Some v0 → is_Some (<[k:=v]> m !! j) ↔ is_Some (m !! j).
Proof.
  intros Hk. rewrite lookup_insert_is_Some.
  destruct (decide (k = j)) as [<-|Hne].
  - rewrite Hk. split; [by eexists|by left].
  - split; [by intros [?|[_ ?]]|by right].
Qed.

Lemma borrowBook_keeps_ledger (env : Env) (req : BorrowReq) (st : State) :
  ledger_ok st → refs_ok st →
  ledger_ok (exec (borrowBook env req) st).2 ∧
  refs_ok (exec (borrowBook env req) st).2.
Proof.
  intros Hled Hrefs.
  destruct (borrowBook_inv env req st) as [[e He]|(book & user & Hok)].
  { by rewrite He. }
  destruct (borrowBook_success env req st book user Hok)
    as (st' & -> & Hk & Hb & Hu & _).
  destruct Hok as (_ & _ & E & Hc & Eu & _ & _ & _ & Ei). cbn [snd]. split.
  - intros bid b. unfold on_loan. rewrite Hk, Hb.
    rewrite size_filter_insert_new by done. cbn [fst snd borrowed_row].
    destruct (decide (bid = book_of req)) as [->|Hne].
    + rewrite lookup_insert_eq. intros [= <-].
      rewrite decide_True by done. destruct (Hled _ _ E) as [H0 H1].
      unfold on_loan in H1. cbn. lia.
    + rewrite lookup_insert_ne by done.
      rewrite decide_False by (intros [? _]; cbn in *; congruence).
      apply Hled.
  - intros k b. rewrite Hb, Hu, Hk. rewrite lookup_insert_Some.
    intros [[_ <-]|[_ Hold]].
    + cbn. rewrite Eu, lookup_insert_eq. done.
    + rewrite (is_Some_insert_existing _ _ _ book) by done. by eapply Hrefs.
Qed.

Lemma returnBook_keeps_ledger (env : Env) (req : ReturnReq) (st : State) :
  ledger_ok st → refs_ok st →
  ledger_ok (exec (returnBook env req) st).2 ∧
  refs_ok (exec (returnBook env req) st).2.
Proof.
  intros Hled Hrefs.
  destruct (returnBook_cases env req st) as [H1 H2].
  destruct (borrowings st !! return_borrowingId req) as [b|] eqn:Eb;
    [|by rewrite H1].
  destruct (H2 b eq_refl) as [H3 H4].
  destruct (decide (Borrowing.status b = RETURNED)) as [Hs|Hs];
    [by rewrite H3|].
  destruct (H4 Hs) as [_ H6].
  destruct (Hrefs _ _ Eb) as [_ [book Ek]].
  destruct (H6 book Ek) as (st' & -> & Hb & Hk & _ & Hu & _).
  cbn [snd]. split.
  - intros bid bk. unfold on_loan. rewrite Hk, Hb.
    destruct (decide (bid = Borrowing.bookId b)) as [->|Hne].
    + rewrite lookup_insert_eq. intros [= <-].
      destruct (Hled _ _ Ek) as [H0 Hsum]. unfold on_loan in Hsum.
      rewrite <- (size_filter_insert_drop _ (return_borrowingId req) b
                    (returned_row req st b)) in Hsum; cbn; try done.
      * cbn in *. lia.
      * by intros [_ ?].
    + rewrite lookup_insert_ne by done.
      rewrite (size_filter_insert_same _ _ b); [apply Hled|done|].
      cbn. split; intros [? _]; congruence.
  - intros k b'. rewrite Hb, Hu, Hk. rewrite lookup_insert_Some.
    rewrite !(is_Some_insert_existing _ _ _ book) by done.
    intros [[_ <-]|[_ Hold]]; [by eapply (Hrefs _ b)|by eapply Hrefs].
Qed.

Lemma extendBorrowing_keeps_ledger (env : Env) (req : ExtendReq)
    (st : State) :
  ledger_ok st → refs_ok st →
  ledger_ok (exec (extendBorrowing env req) st).2 ∧
  refs_ok (exec (extendBorrowing env req) st).2.
Proof.
  intros Hled Hrefs.
  destruct (extendBorrowing_cases env req st) as [H1 H2].
  destruct (additionalDays req) as [d|] eqn:E; [|by rewrite H1].
  destruct (H2 d eq_refl) as [H3 H4].
  destruct (decide (d < 1)); [by rewrite H3|].
  destruct H4 as [H5 H6]; [lia|].
  destruct (borrowings st !! extend_borrowingId req) as [b|] eqn:Eb;
    [|by rewrite H5].
  destruct (H6 b eq_refl) as [H7 H8].
  destruct (decide (Borrowing.status b = BORROWED)) as [Hs|Hs];
    [|by rewrite H7].
  destruct (H8 Hs) as (st' & -> & Hb & Hk & Hu & _). cbn [snd]. split.
  - intros bid bk. unfold on_loan. rewrite Hk, Hb.
    rewrite (size_filter_insert_same _ _ b) by done. apply Hled.
  - intros k b'. rewrite Hb, Hu, Hk. rewrite lookup_insert_Some.
    intros [[_ <-]|[_ Hold]]; [by eapply (Hrefs _ b)|by eapply Hrefs].
Qed.

Lemma mark_overdue_keeps (c : Z) (b : Borrowing.t) :
  Borrowing.userId (mark_overdue c b) = Borrowing.userId b ∧
  Borrowing.bookId (mark_overdue c b) = Borrowing.bookId b ∧
  (Borrowing.status (mark_overdue c b) ≠ RETURNED ↔
   Borrowing.status b ≠ RETURNED).
Proof.
  unfold mark_overdue. case_decide as H; [|done].
  destruct H as [Hs _]. cbn. rewrite Hs. done.
Qed.

Lemma checkOverdueBooks_keeps_ledger (env : Env) (st : State) :
  ledger_ok st → refs_ok st →
  ledger_ok (exec (checkOverdueBooks env) st).2 ∧
  refs_ok (exec (checkOverdueBooks env) st).2.
Proof.
  intros Hled Hrefs.
  rewrite (checkOverdueBooks_exec env st (refs_ok_overdue_now st Hrefs)).
  cbn [snd]. split.
  - intros bid bk Hk. cbn in Hk. unfold on_loan. cbn [borrowings].
    rewrite map_filter_fmap, map_size_fmap.
    destruct (Hled _ _ Hk) as [H0 H1]. split; [done|]. rewrite <- H1.
    unfold on_loan. do 3 f_equal. apply map_filter_ext.
    intros k b _. cbn.
    destruct (mark_overdue_keeps (clock st) b) as (_ & -> & ->). done.
  - intros k b'. cbn. rewrite lookup_fmap, fmap_Some.
    intros (b & Hb & ->).
    destruct (mark_overdue_keeps (clock st) b) as (-> & -> & _).
    by eapply Hrefs.
Qed.

Lemma ledger_check_ok (st : State) : ledger_check st = true → ledger_ok st.
Proof.
  unfold ledger_check, ledger_ok. rewrite forallb_forall.
  intros H k b Hk. specialize (H (k, b)). cbn in H.
  rewrite andb_true_iff, Z.leb_le, Z.eqb_eq in H. apply H.
  apply list_elem_of_In, elem_of_map_to_list. done.
Qed.

Lemma ledger_inventory (st : State) : ledger_ok st → inventory_ok st.
Proof.
  intros Hled bid b Hb. destruct (Hled _ _ Hb) as [H0 H1].
  unfold on_loan in H1. cbn. lia.
Qed.

(** X1.  In a state where every copy of every book is either available or
    out on a borrowing that is not RETURNED, and where the foreign keys of
    the borrowings resolve, any sequence of borrows, returns, extensions and
    sweep ticks, at any times and whether they succeed or fail, leads to a
    state of the same kind; in particular [0 ≤ copiesAvailable ≤
    copiesTotal] holds for every book after each of them. *)
Theorem lifecycle_keeps_ledger (ops : list LifecycleOp) (st : State) :
  ledger_ok st → refs_ok st →
  ledger_ok (lifecycle ops st) ∧ refs_ok (lifecycle ops st) ∧
  inventory_ok (lifecycle ops st).
Proof.
  intros Hled Hrefs.
  cut (ledger_ok (lifecycle ops st) ∧ refs_ok (lifecycle ops st)).
  { intros [? ?]. auto using ledger_inventory. }
  revert st Hled Hrefs. unfold lifecycle.
  induction ops as [|op ops IH]; intros st Hled Hrefs; [done|].
  cbn [foldl].
  assert (ledger_ok (lifecycle_step st op) ∧ refs_ok (lifecycle_step st op))
    as [? ?]; [|by apply IH].
  destruct op as [env req|env req|env req|env|t]; cbn [lifecycle_step].
  - by apply borrowBook_keeps_ledger.
  - by apply returnBook_keeps_ledger.
  - by apply extendBorrowing_keeps_ledger.
  - by apply checkOverdueBooks_keeps_ledger.
  - done.
Qed.

Lemma lifecycle_keeps_ledger_witness :
  inventory_ok (lifecycle Scenario6.story Scenario6.shelf) ∧
  Book.copiesAvailable <$>
    books (lifecycle Scenario6.story Scenario6.shelf) !! "b2" = Some 1 ∧
  Borrowing.status <$>
    borrowings (lifecycle Scenario6.story Scenario6.shelf) !! "br-new"
    = Some RETURNED.
Proof.
  split.
  - apply (lifecycle_keeps_ledger Scenario6.story Scenario6.shelf).
    + apply ledger_check_ok. vm_compute. reflexivity.
    + apply refs_check_ok. vm_compute. reflexivity.
  - vm_compute. split; reflexivity.
Defined.

Lemma size_filter_split {V} (P Q : string * V → Prop)
    `{!∀ x, Decision (P x)} `{!∀ x, Decision (Q x)} (m : gmap string V) :
  size (filter P m) =
  (size (filter (λ x, P x ∧ Q x) m) + size (filter (λ x, P x ∧ ¬ Q x) m))%nat.
Proof.
  rewrite <- (map_filter_union_complement Q (filter P m)) at 1.
  rewrite map_size_disj_union by apply map_disjoint_filter_complement.
  rewrite !map_filter_filter.
  f_equal; f_equal; apply map_filter_ext; intros k v _; cbn; tauto.
Qed.

(** ** The limit count after a return and after a tick *)

Lemma count_status_insert_same (st st' : State) (u k : string)
    (b b' : Borrowing.t) (sts : list BorrowingStatus) :
  borrowings st !! k = Some b →
  borrowings st' = <[k := b']> (borrowings st) →
  (Borrowing.userId b = u ∧ Borrowing.status b ∈ sts ↔
   Borrowing.userId b' = u ∧ Borrowing.status b' ∈ sts) →
  count_status sts st' u = count_status sts st u.
Proof.
  intros Hk Hb Hiff. unfold count_status. rewrite Hb.
  by rewrite (size_filter_insert_same _ _ b).
Qed.

(** X2.  A return of a borrowing with status BORROWED lowers by one the
    number of borrowings that count towards the limit of its user, and a
    return of a borrowing flagged OVERDUE leaves that number as it is; the
    numbers of the other users do not change. *)
Theorem returnBook_frees_a_slot
    (env : Env) (req : ReturnReq) (st : State) (b : Borrowing.t)
    (book : Book.t) :
  borrowings st !! return_borrowingId req = Some b →
  books st !! Borrowing.bookId b = Some book →
  Borrowing.status b ≠ RETURNED →
  let st' := (exec (returnBook env req) st).2 in
  count_status [BORROWED] st' (Borrowing.userId b) =
    count_status [BORROWED] st (Borrowing.userId b)
    - (if decide (Borrowing.status b = BORROWED) then 1 else 0) ∧
  ∀ u, u ≠ Borrowing.userId b →
    count_status [BORROWED] st' u = count_status [BORROWED] st u.
Proof.
  intros Eb Ek Hs st'.
  destruct (returnBook_cases env req st) as [_ H2].
  destruct (H2 b Eb) as [_ H4]. destruct (H4 Hs) as [_ H6].
  destruct (H6 book Ek) as (st1 & Hres & Hb & _).
  subst st'. rewrite Hres. cbn [snd]. split.
  - case_decide as Hbor.
    + unfold count_status. rewrite Hb.
      rewrite <- (size_filter_insert_drop _ (return_borrowingId req) b
                    (returned_row req st b) (borrowings st)); [lia|done|..].
      * cbn. split; [done|]. rewrite Hbor. left.
      * cbn. intros [_ Hin]. by apply list_elem_of_singleton in Hin.
    + rewrite (count_status_insert_same st st1 _ _ b _ _ Eb Hb); [lia|].
      cbn. rewrite !list_elem_of_singleton. split; intros [_ ?]; done.
  - intros u Hu.
    apply (count_status_insert_same st st1 _ _ b _ _ Eb Hb).
    cbn. split; intros [? _]; congruence.
Qed.

Lemma returnBook_frees_a_slot_witness :
  count_status [BORROWED] (Scenario.five_out 0) "u1" = 5 ∧
  count_status [BORROWED]
    (exec (returnBook Scenario.env (Scenario2.give_back "br-3"))
          (Scenario.five_out 0)).2 "u1" = 4.
Proof.
  split; [vm_compute; reflexivity|].
  destruct (returnBook_frees_a_slot Scenario.env (Scenario2.give_back "br-3")
              (Scenario.five_out 0)
              (Scenario.a_borrowing "u1" "b3" (114 * DAY_MS) BORROWED)
              (Scenario.a_book "Ulysses" 2 1)) as [H _].
  - vm_compute; reflexivity.
  - vm_compute; reflexivity.
  - discriminate.
  - change (Borrowing.userId _) with "u1" in H. rewrite H.
    vm_compute. reflexivity.
Defined.

(** X3.  A borrow that is refused only because its borrower has reached
    the limit is accepted once one of the borrower's BORROWED borrowings has
    been returned. *)
Theorem borrowBook_after_return
    (env env' : Env) (req : BorrowReq) (req' : ReturnReq) (st : State)
    (book : Book.t) (user : User.t) (b : Borrowing.t) (book' : Book.t) :
  (on_behalf req → actor_role (borrow_user req) = ADMIN) →
  truthy (borrow_bookId req) = true →
  books st !! book_of req = Some book →
  0 < Book.copiesAvailable book →
  users st !! borrower req = Some user →
  User.status user = ACTIVE →
  ¬ holds st (borrower req) (book_of req) →
  count_status [BORROWED] st (borrower req) = max_books env →
  borrowings st !! uuid env = None →
  borrowings st !! return_borrowingId req' = Some b →
  Borrowing.userId b = borrower req →
  Borrowing.status b = BORROWED →
  books st !! Borrowing.bookId b = Some book' →
  exec (borrowBook env req) st
    = (inl (AppError BORROWING_LIMIT_REACHED 400), st) ∧
  ∃ r1 st1 r2 st2,
    exec (returnBook env' req') st = (inr r1, st1) ∧
    exec (borrowBook env req) st1 = (inr r2, st2).
Proof.
  intros Hp Hb E Hc Eu Ha Hh Hm Ei Eb Hub Hsb Ek. split.
  { destruct (borrowBook_cases env req st) as [_ H2].
    destruct (H2 Hp) as [_ H4]. destruct (H4 Hb) as [_ H6].
    destruct (H6 book E) as [_ H8]. destruct (H8 Hc) as [_ H10].
    destruct (H10 user Eu) as [_ H12]. destruct (H12 Ha) as [_ H14].
    destruct (H14 Hh) as [H15 _]. apply H15. lia. }
  destruct (returnBook_cases env' req' st) as [_ H2].
  destruct (H2 b Eb) as [_ H4].
  destruct H4 as [_ H6]; [by rewrite Hsb|].
  destruct (H6 book' Ek) as (st1 & Hres & Hb1 & Hk1 & _ & Hu1 & _).
  assert (∃ bk, books st1 !! book_of req = Some bk ∧
                0 < Book.copiesAvailable bk) as (bk & Ebk & Hcbk).
  { rewrite Hk1. destruct (decide (Borrowing.bookId b = book_of req)) as [Hq|].
    - rewrite Hq, lookup_insert_eq. eexists. split; [done|].
      rewrite Hq, E in Ek. injection Ek as <-. cbn. lia.
    - rewrite lookup_insert_ne by done. eauto. }
  assert (Hok : borrow_ok env req st1 bk user).
  { unfold borrow_ok. split; [done|]. split; [done|]. split; [done|].
    split; [done|]. split; [by rewrite Hu1|]. split; [done|].
    split; [|split].
    - intros (k & bx & Hk & Hux & Hbx & Hsx). apply Hh.
      rewrite Hb1, lookup_insert_Some in Hk.
      destruct Hk as [[_ <-]|[_ Hk]]; [done|]. by exists k, bx.
    - unfold count_status in *. rewrite Hb1.
      rewrite <- (size_filter_insert_drop _ (return_borrowingId req') b
                    (returned_row req' st b) (borrowings st)) in Hm;
        [lia|done|..].
      + cbn. split; [done|]. rewrite Hsb. left.
      + cbn. intros [_ Hin]. by apply list_elem_of_singleton in Hin.
    - rewrite Hb1, lookup_insert_ne; [done|]. intros Heq. congruence. }
  destruct (borrowBook_success env req st1 bk user Hok) as (st2 & Hres2 & _).
  by eexists _, st1, _, st2.
Qed.

Lemma borrowBook_after_return_witness :
  exec (borrowBook Scenario.env (Scenario.lend Scenario.admin "u1" "b1"))
       (Scenario.five_out 0)
    = (inl (AppError BORROWING_LIMIT_REACHED 400), Scenario.five_out 0) ∧
  ∃ r1 st1 r2 st2,
    exec (returnBook Scenario.env (Scenario2.give_back "br-3"))
         (Scenario.five_out 0) = (inr r1, st1) ∧
    exec (borrowBook Scenario.env (Scenario.lend Scenario.admin "u1" "b1"))
         st1 = (inr r2, st2).
Proof.
  apply (borrowBook_after_return Scenario.env Scenario.env
           (Scenario.lend Scenario.admin "u1" "b1")
           (Scenario2.give_back "br-3") (Scenario.five_out 0)
           (Scenario.a_book "Dune" 3 3) (Scenario.a_user "u1" USER)
           (Scenario.a_borrowing "u1" "b3" (114 * DAY_MS) BORROWED)
           (Scenario.a_book "Ulysses" 2 1));
    try (vm_compute; reflexivity).
  - rewrite holds_find. vm_compute. intros [x Hx]. discriminate Hx.
Defined.

(** ** A tick and the limit count *)

Lemma mark_overdue_status (c : Z) (b : Borrowing.t) :
  Borrowing.status (mark_overdue c b) = BORROWED ↔
  Borrowing.status b = BORROWED ∧ ¬ Borrowing.expectedReturnDate b < c.
Proof.
  unfold mark_overdue, is_overdue. case_decide as H; cbn; [|tauto].
  split; [done|]. intros [_ Hn]. destruct Hn. apply H.
Qed.

Lemma mark_overdue_out (c : Z) (b : Borrowing.t) :
  Borrowing.status (mark_overdue c b) ∈ [BORROWED; OVERDUE] ↔
  Borrowing.status b ∈ [BORROWED; OVERDUE].
Proof.
  unfold mark_overdue, is_overdue. case_decide as H; cbn; [|done].
  destruct H as [-> _]. rewrite !elem_of_cons. tauto.
Qed.

(** X4.  A tick of the sweep, on a store that serves every call and whose
    foreign keys resolve, takes out of the count that borrowBook compares
    with the limit (the user's borrowings with status BORROWED) exactly the
    borrowings of the user that it finds overdue; the number of borrowings
    of the user that are out (BORROWED or OVERDUE) is what it was. *)
Theorem checkOverdueBooks_lowers_the_limit_count (env : Env) (st : State)
    (uid : string) :
  refs_ok st →
  let st' := (exec (checkOverdueBooks env) st).2 in
  count_status [BORROWED] st' uid =
    count_status [BORROWED] st uid - count_overdue (clock st) st uid ∧
  count_status [BORROWED; OVERDUE] st' uid =
    count_status [BORROWED; OVERDUE] st uid.
Proof.
  intros Hrefs st'. subst st'.
  rewrite (checkOverdueBooks_exec env st (refs_ok_overdue_now st Hrefs)).
  unfold count_status, count_overdue.
  cbn [snd borrowings]. rewrite !map_filter_fmap, !map_size_fmap. split.
  - rewrite (size_filter_split
      (λ kv : string * Borrowing.t,
         Borrowing.userId kv.2 = uid ∧ Borrowing.status kv.2 ∈ [BORROWED])
      (λ kv, Borrowing.expectedReturnDate kv.2 < clock st) (borrowings st)).
    match goal with
    | |- Z.of_nat (size ?a) = Z.of_nat (size ?b + size ?c) - Z.of_nat (size ?d)
      => assert (a = c) as ->; [|assert (b = d) as ->; [|lia]]
    end.
    + apply map_filter_ext. intros k b _. cbn.
      destruct (mark_overdue_keeps (clock st) b) as [-> _].
      rewrite !list_elem_of_singleton, mark_overdue_status. tauto.
    + apply map_filter_ext. intros k b _. cbn. unfold is_overdue.
      rewrite !list_elem_of_singleton. tauto.
  - do 2 f_equal. apply map_filter_ext. intros k b _. cbn.
    rewrite mark_overdue_out. destruct (mark_overdue_keeps (clock st) b) as [-> _].
    done.
Qed.

Lemma checkOverdueBooks_lowers_the_limit_count_witness :
  count_status [BORROWED] Scenario4.two_late "u1" = 2 ∧
  count_status [BORROWED]
    (exec (checkOverdueBooks Scenario.env) Scenario4.two_late).2 "u1" = 0 ∧
  count_status [BORROWED; OVERDUE]
    (exec (checkOverdueBooks Scenario.env) Scenario4.two_late).2 "u1" = 2.
Proof.
  destruct (checkOverdueBooks_lowers_the_limit_count Scenario.env
              Scenario4.two_late "u1") as [H1 H2].
  { apply refs_check_ok. vm_compute. reflexivity. }
  split; [vm_compute; reflexivity|].
  split; [rewrite H1|rewrite H2]; vm_compute; reflexivity.
Defined.

(** ** The queries of the borrowing controller *)

#[local] Instance by_expectedReturnDate_asc_total
    : Total by_expectedReturnDate_asc.
Proof. intros x y. unfold by_expectedReturnDate_asc. lia. Qed.

#[local] Instance by_expectedReturnDate_asc_trans
    : Transitive by_expectedReturnDate_asc.
Proof. intros x y z. unfold by_expectedReturnDate_asc. lia. Qed.

#[local] Instance by_borrowDate_desc_total : Total by_borrowDate_desc.
Proof. intros x y. unfold by_borrowDate_desc. lia. Qed.

#[local] Instance by_borrowDate_desc_trans : Transitive by_borrowDate_desc.
Proof. intros x y z. unfold by_borrowDate_desc. lia. Qed.

Lemma exec_ret {A} (a : A) (st : State) : exec (mret a) st = (inr a, st).
Proof. done. Qed.

Lemma exec_map_sync_days (l : list BorrowingIncl) (st : State) :
  exec (map_sync (λ b : BorrowingIncl,
          now ← newDate;
          mret (b, (now - Borrowing.expectedReturnDate (row b)) `div` DAY_MS))
          l) st =
  (inr ((λ b, (b, (clock st - Borrowing.expectedReturnDate (row b))
                    `div` DAY_MS)) <$> l), st).
Proof.
  induction l as [|x l IH]; [done|].
  cbn [map_sync]. rewrite exec_bind, exec_bind. unfold newDate at 1.
  rewrite exec_sync. cbn [fst snd]. rewrite exec_ret, exec_bind, IH.
  by rewrite exec_ret.
Qed.

(** The rows that [findMany] joins are told apart by their keys. *)
Lemma include_NoDup (st : State) (P : string * Borrowing.t → Prop)
    `{!∀ x, Decision (P x)} :
  NoDup (id <$> (include st <$> map_to_list (filter P (borrowings st)))).
Proof.
  rewrite <- list_fmap_compose.
  apply (NoDup_fmap_2_strong _); [|apply NoDup_map_to_list].
  intros [k1 b1] [k2 b2] Hk1%elem_of_map_to_list Hk2%elem_of_map_to_list E.
  cbn in E. subst k2. congruence.
Qed.

Lemma include_elem (st : State) (P : string * Borrowing.t → Prop)
    `{!∀ x, Decision (P x)} (x : BorrowingIncl) :
  x ∈ include st <$> map_to_list (filter P (borrowings st)) ↔
  ∃ k b, borrowings st !! k = Some b ∧ P (k, b) ∧ x = include st (k, b).
Proof.
  rewrite list_elem_of_fmap. split.
  - intros ([k b] & -> & Hkb%elem_of_map_to_list%map_lookup_filter_Some).
    exists k, b. tauto.
  - intros (k & b & Hk & HP & ->). exists (k, b). split; [done|].
    apply elem_of_map_to_list, map_lookup_filter_Some. done.
Qed.

(** X5.  getOverdueBorrowings changes nothing and fails on no store that
    serves its call.  What it returns are the borrowings that are BORROWED
    with an expectedReturnDate before the time on the clock, each once, in
    the order of their expectedReturnDate; the daysOverdue of each is the
    number of whole days between its expectedReturnDate and the clock, which
    is not negative. *)
Theorem getOverdueBorrowings_lists_the_overdue (st : State) :
  ∃ r,
    exec getOverdueBorrowings st = (inr r, st) ∧
    r.*1 ≡ₚ overdue_now st ∧
    NoDup (id <$> r.*1) ∧
    StronglySorted by_expectedReturnDate_asc r.*1 ∧
    ∀ x d, (x, d) ∈ r →
      0 ≤ d ∧
      d * DAY_MS ≤ clock st - Borrowing.expectedReturnDate (row x)
        < (d + 1) * DAY_MS.
Proof.
  unfold getOverdueBorrowings. rewrite exec_bind. unfold newDate at 1.
  rewrite exec_sync. cbn [fst snd]. rewrite exec_bind, exec_await.
  unfold prisma_borrowing_findMany_orderBy. fold (overdue_now st).
  rewrite exec_map_sync_days. eexists. split; [done|].
  rewrite <- list_fmap_compose.
  assert (E : ∀ l : list BorrowingIncl,
            (fst ∘ (λ b : BorrowingIncl,
               (b, (clock st - Borrowing.expectedReturnDate (row b))
                     `div` DAY_MS))) <$> l = l).
  { intros l. rewrite <- (list_fmap_id l) at 2. by apply list_fmap_ext. }
  rewrite E. split; [apply merge_sort_Permutation|].
  split.
  { rewrite merge_sort_Permutation. apply include_NoDup. }
  split; [apply (StronglySorted_merge_sort _)|].
  intros x d [y [Hy Hin]]%list_elem_of_fmap. inversion Hy; subst y d; clear Hy.
  rewrite merge_sort_Permutation in Hin.
  apply overdue_now_elem in Hin as (_ & [_ Hlate] & _).
  assert (HD : 0 < DAY_MS) by (by vm_compute).
  split; [apply Z.div_pos; lia|].
  pose proof (Z.mul_div_le (clock st - Borrowing.expectedReturnDate (row x))
                DAY_MS HD).
  pose proof (Z.mul_succ_div_gt
                (clock st - Borrowing.expectedReturnDate (row x)) DAY_MS HD).
  lia.
Qed.

Lemma size_filter_complement {V} (P : string * V → Prop)
    `{!∀ x, Decision (P x)} (m : gmap string V) :
  size m = (size (filter P m) + size (filter (λ x, ¬ P x) m))%nat.
Proof.
  rewrite <- (map_filter_union_complement P m) at 1.
  apply map_size_disj_union, map_disjoint_filter_complement.
Qed.

Lemma overdue_now_length (st : State) :
  length (overdue_now st) =
  size (filter (λ kv : string * Borrowing.t,
                  Borrowing.status kv.2 = BORROWED ∧
                  Borrowing.expectedReturnDate kv.2 < clock st)
               (borrowings st)).
Proof. unfold overdue_now. by rewrite length_fmap, length_map_to_list. Qed.

Lemma getBorrowingStats_exec (st : State) :
  exec getBorrowingStats st =
  (inr (mkBorrowingStats
          (Z.of_nat (size (borrowings st)))
          (borrowings_with BORROWED st)
          (borrowings_with RETURNED st)
          (Z.of_nat (length (overdue_now st)))), st).
Proof.
  unfold getBorrowingStats. rewrite exec_bind. unfold newDate.
  rewrite exec_sync. cbn [fst snd].
  repeat (rewrite exec_bind, exec_await; unfold prisma_borrowing_count at 1;
          cbn beta iota).
  rewrite exec_ret, overdue_now_length.
  by rewrite map_filter_id by done.
Qed.

(** X6.  getBorrowingStats changes nothing and fails on no store that
    serves its calls.  Its totalBorrowings is the sum of its
    activeBorrowings, its returnedBorrowings and the borrowings flagged
    OVERDUE, which it does not report; its overdueBorrowings are among its
    activeBorrowings, and are as many as the borrowings a tick of the sweep
    would flag at that time. *)
Theorem getBorrowingStats_adds_up (st : State) :
  ∃ s,
    exec getBorrowingStats st = (inr s, st) ∧
    totalBorrowings s =
      activeBorrowings s + returnedBorrowings s + borrowings_with OVERDUE st ∧
    0 ≤ overdueBorrowings s ≤ activeBorrowings s ∧
    overdueBorrowings s = Z.of_nat (length (overdue_now st)).
Proof.
  eexists. split; [apply getBorrowingStats_exec|]. cbn.
  unfold borrowings_with. split; [|split; [|done]].
  - rewrite (size_filter_complement
               (λ kv : string * Borrowing.t, Borrowing.status kv.2 = BORROWED)
               (borrowings st)).
    rewrite (size_filter_split
               (λ kv : string * Borrowing.t, ¬ Borrowing.status kv.2 = BORROWED)
               (λ kv : string * Borrowing.t, Borrowing.status kv.2 = RETURNED)
               (borrowings st)).
    match goal with
    | |- Z.of_nat (?a + (size ?b + size ?c)) =
         Z.of_nat ?a + Z.of_nat (size ?b') + Z.of_nat (size ?c') =>
        assert (b = b') as ->; [|assert (c = c') as ->; [|lia]]
    end.
    + apply map_filter_ext. intros k b _. cbn. split; [tauto|].
      intros E. rewrite E. done.
    + apply map_filter_ext. intros k b _. cbn.
      destruct (Borrowing.status b); split; intros; try done;
        try (split; done); tauto.
  - rewrite overdue_now_length. split; [lia|].
    apply inj_le.
    assert (filter (λ kv : string * Borrowing.t,
                      Borrowing.status kv.2 = BORROWED ∧
                      Borrowing.expectedReturnDate kv.2 < clock st)
                   (borrowings st) =
            filter (λ kv : string * Borrowing.t,
                      Borrowing.expectedReturnDate kv.2 < clock st)
                   (filter (λ kv : string * Borrowing.t,
                              Borrowing.status kv.2 = BORROWED)
                           (borrowings st))) as ->.
    { rewrite map_filter_filter. apply map_filter_ext. intros; cbn; tauto. }
    apply map_size_filter.
Qed.

Lemma overdue_now_after_a_tick (env : Env) (st : State) :
  refs_ok st → overdue_now (exec (checkOverdueBooks env) st).2 = [].
Proof.
  intros Hrefs.
  rewrite (checkOverdueBooks_exec env st (refs_ok_overdue_now st Hrefs)).
  apply overdue_now_nil. cbn [snd borrowings clock]. intros k b.
  rewrite lookup_fmap. destruct (borrowings st !! k) as [b0|]; [|done].
  cbn. intros [= <-] [Hs Hlate].
  apply mark_overdue_status in Hs as [_ Hs]. apply Hs.
  unfold mark_overdue in Hlate. by case_decide.
Qed.

(** X7.  Right after a tick of the sweep, on a store that serves every call
    and whose foreign keys resolve, getOverdueBorrowings returns the empty
    list and the overdueBorrowings of getBorrowingStats is 0, while the
    borrowings that the tick found overdue are still out, with status
    OVERDUE. *)
Theorem overdue_reports_are_empty_after_a_tick (env : Env) (st : State) :
  refs_ok st →
  let st' := (exec (checkOverdueBooks env) st).2 in
  exec getOverdueBorrowings st' = (inr [], st') ∧
  (∃ s, exec getBorrowingStats st' = (inr s, st') ∧ overdueBorrowings s = 0) ∧
  ∀ x, x ∈ overdue_now st →
    Borrowing.status <$> borrowings st' !! id x = Some OVERDUE.
Proof.
  intros Hrefs st'.
  pose proof (overdue_now_after_a_tick env st Hrefs) as Hnil. fold st' in Hnil.
  split; [|split].
  - unfold getOverdueBorrowings. rewrite exec_bind. unfold newDate at 1.
    rewrite exec_sync. cbn [fst snd]. rewrite exec_bind, exec_await.
    unfold prisma_borrowing_findMany_orderBy. fold (overdue_now st').
    rewrite Hnil. done.
  - eexists. split; [apply getBorrowingStats_exec|]. cbn. by rewrite Hnil.
  - intros x (Hk & Hov & _)%overdue_now_elem. subst st'.
    rewrite (checkOverdueBooks_exec env st (refs_ok_overdue_now st Hrefs)).
    cbn [snd borrowings]. rewrite lookup_fmap, Hk. cbn.
    unfold mark_overdue. by rewrite decide_True.
Qed.

Lemma overdue_reports_are_empty_after_a_tick_witness :
  length (overdue_now Scenario4.two_late) = 2%nat ∧
  exec getOverdueBorrowings
    (exec (checkOverdueBooks Scenario.env) Scenario4.two_late).2
  = (inr [], (exec (checkOverdueBooks Scenario.env) Scenario4.two_late).2).
Proof.
  split; [vm_compute; reflexivity|].
  apply (overdue_reports_are_empty_after_a_tick Scenario.env
           Scenario4.two_late).
  apply refs_check_ok. vm_compute. reflexivity.
Defined.

(** ** Requests that are refused *)







(** ** The history of a user *)

Lemma getUserBorrowings_exec (uid : string) (status : option BorrowingStatus)
    (st : State) :
  ∃ r,
    exec (getUserBorrowings uid status) st = (inr r, st) ∧
    r ≡ₚ include st <$> map_to_list (filter
           (λ kv : string * Borrowing.t,
              Borrowing.userId kv.2 = uid ∧ has_status status kv.2)
           (borrowings st)) ∧
    StronglySorted by_borrowDate_desc r.
Proof.
  unfold getUserBorrowings.
  destruct status as [s|]; rewrite exec_await;
    unfold prisma_borrowing_findMany_orderBy;
    (eexists; split; [done|]);
    (split; [|apply (StronglySorted_merge_sort _)]);
    rewrite merge_sort_Permutation;
    (assert (∀ m1 m2 : gmap string Borrowing.t, m1 = m2 →
       include st <$> map_to_list m1 ≡ₚ include st <$> map_to_list m2)
       as Hperm by (by intros ?? ->));
    apply Hperm, map_filter_ext; intros k b _; cbn.
  - done.
  - tauto.
Qed.

(** X9.  getUserBorrowings changes nothing and fails on no store that
    serves its call.  It returns the borrowings of the user, each once:
    all of them when the query names no status, those with that status when
    it names one; the later the borrowDate, the earlier in the list. *)
Theorem getUserBorrowings_lists_the_history (uid : string)
    (status : option BorrowingStatus) (st : State) :
  ∃ r,
    exec (getUserBorrowings uid status) st = (inr r, st) ∧
    (∀ x, x ∈ r ↔
       ∃ k b, borrowings st !! k = Some b ∧ x = include st (k, b) ∧
              Borrowing.userId b = uid ∧ has_status status b) ∧
    NoDup (id <$> r) ∧
    StronglySorted by_borrowDate_desc r.
Proof.
  destruct (getUserBorrowings_exec uid status st) as (r & Hex & Hperm & Hsort).
  exists r. split; [done|]. split; [|split; [|done]].
  - intros x. rewrite Hperm, include_elem. cbn.
    split; intros (k & b & H1 & H2 & H3); exists k, b; tauto.
  - rewrite Hperm. apply include_NoDup.
Qed.

(** X10.  After a borrowBook that passed every check, the history of the
    borrower, asked for without a status or with status BORROWED, holds the
    new borrowing, joined with the book after the decrement; the borrowing in
    the answer of borrowBook itself is joined with the book as it was
    before, one copy more available. *)
Theorem borrowBook_shows_in_the_history (env : Env) (req : BorrowReq)
    (st : State) (book : Book.t) (user : User.t)
    (status : option BorrowingStatus) :
  borrow_ok env req st book user →
  status = None ∨ status = Some BORROWED →
  ∃ st' r,
    exec (borrowBook env req) st =
      (inr (mkIncl (uuid env) (borrowed_row env req st)
                   (Some user) (Some book)), st') ∧
    exec (getUserBorrowings (borrower req) status) st' = (inr r, st') ∧
    mkIncl (uuid env) (borrowed_row env req st) (Some user)
           (Some (Book.set_copiesAvailable (λ n, n - 1) book)) ∈ r.
Proof.
  intros Hok Hstatus.
  destruct (borrowBook_success env req st book user Hok)
    as (st' & Hex & Hbooks & Hbor & Hus & _).
  destruct (getUserBorrowings_exec (borrower req) status st')
    as (r & Hr & Hperm & _).
  exists st', r. split; [done|]. split; [done|].
  rewrite Hperm, include_elem.
  exists (uuid env), (borrowed_row env req st).
  split; [by rewrite Hbor, lookup_insert_eq|]. split.
  - cbn. split; [done|]. by destruct Hstatus as [-> | ->].
  - unfold include. cbn. rewrite Hus, Hbooks, lookup_insert_eq.
    destruct Hok as (_ & _ & _ & _ & -> & _). done.
Qed.

Lemma borrowBook_shows_in_the_history_witness :
  ∃ st' r,
    exec (borrowBook Scenario.env (Scenario.lend Scenario.admin "u1" "b2"))
         Scenario.quiet
    = (inr (mkIncl "br-new"
              (borrowed_row Scenario.env
                 (Scenario.lend Scenario.admin "u1" "b2") Scenario.quiet)
              (Some (Scenario.a_user "u1" USER))
              (Some (Scenario.a_book "Emma" 1 1))), st') ∧
    exec (getUserBorrowings "u1" (Some BORROWED)) st' = (inr r, st') ∧
    mkIncl "br-new"
      (borrowed_row Scenario.env
         (Scenario.lend Scenario.admin "u1" "b2") Scenario.quiet)
      (Some (Scenario.a_user "u1" USER))
      (Some (Scenario.a_book "Emma" 1 0)) ∈ r.
Proof.
  apply (borrowBook_shows_in_the_history Scenario.env
           (Scenario.lend Scenario.admin "u1" "b2") Scenario.quiet
           (Scenario.a_book "Emma" 1 1) (Scenario.a_user "u1" USER)
           (Some BORROWED)); [|by right].
  refine (conj _ (conj _ (conj _ (conj _ (conj _ (conj _ (conj _
            (conj _ _))))))));
    try (vm_compute; reflexivity); try (intros _; reflexivity).
  rewrite holds_find. vm_compute. intros [x Hx]. discriminate Hx.
Defined.

(** ** The queries of the book controller *)

(** X11.  getBookById changes nothing.  For a key that no book has it ends
    in BOOK_NOT_FOUND.  Otherwise it returns the book with borrowings of that
    book, each once, the later the borrowDate the earlier in the list: all of
    them when they are ten or fewer, and else ten of them, none of which was
    borrowed before a borrowing that is left out. *)
Theorem getBookById_shows_the_latest_ten (bid : string) (st : State) :
  (books st !! bid = None →
   exec (getBookById bid) st = (inl (AppError BOOK_NOT_FOUND 404), st)) ∧
  (∀ b, books st !! bid = Some b →
   ∃ l,
     exec (getBookById bid) st = (inr (b, l), st) ∧
     length l =
       (10 `min` size (filter (λ kv : string * Borrowing.t,
                                 Borrowing.bookId kv.2 = bid)
                              (borrowings st)))%nat ∧
     (∀ x, x ∈ l → borrowings st !! id x = Some (row x) ∧
                    Borrowing.bookId (row x) = bid) ∧
     NoDup (id <$> l) ∧
     StronglySorted by_borrowDate_desc l ∧
     (∀ k b', borrowings st !! k = Some b' → Borrowing.bookId b' = bid →
        include st (k, b') ∉ l →
        ∀ x, x ∈ l →
          Borrowing.borrowDate b' ≤ Borrowing.borrowDate (row x))).
Proof.
  unfold getBookById. rewrite exec_bind, exec_await.
  unfold prisma_book_findUnique_borrowings. split.
  { intros ->. done. }
  intros b ->. rewrite exec_ret.
  set (L := include st <$> map_to_list (filter
              (λ kv : string * Borrowing.t, Borrowing.bookId kv.2 = bid)
              (borrowings st))).
  set (s := merge_sort by_borrowDate_desc L).
  assert (Hperm : s ≡ₚ L) by apply merge_sort_Permutation.
  assert (Hsort : StronglySorted by_borrowDate_desc (take 10 s ++ drop 10 s)).
  { rewrite take_drop. apply (StronglySorted_merge_sort _). }
  assert (Hin : ∀ x, x ∈ take 10 s → x ∈ L).
  { intros x Hx. rewrite <- Hperm, <- (take_drop 10 s), elem_of_app.
    by left. }
  eexists. split; [done|]. split; [|split; [|split; [|split]]].
  - rewrite length_take, Hperm. unfold L.
    by rewrite length_fmap, length_map_to_list.
  - intros x Hx%Hin. apply include_elem in Hx as (k & b' & Hk & Hb & ->).
    done.
  - assert (Hnd : NoDup (id <$> (take 10 s ++ drop 10 s))).
    { rewrite take_drop, Hperm. apply include_NoDup. }
    rewrite fmap_app in Hnd. by apply NoDup_app in Hnd as [? _].
  - by apply StronglySorted_app_1_l in Hsort.
  - intros k b' Hk Hb Hout x Hx.
    apply (StronglySorted_app_1_elem_of _ _ _ x (include st (k, b')) Hsort);
      [done|].
    assert (Hs : include st (k, b') ∈ take 10 s ++ drop 10 s).
    { rewrite take_drop, Hperm. apply include_elem. by exists k, b'. }
    apply elem_of_app in Hs as [Hs|Hs]; [by destruct Hout|done].
Qed.

Lemma num_or_0 (n : Z) : num_or (Some n) 0 = n.
Proof. unfold num_or. destruct (n =? 0) eqn:E; [|done]. lia. Qed.

Lemma getBookStats_exec (st : State) :
  exec getBookStats st =
  (inr (mkBookStats (Z.of_nat (size (books st)))
          (books_with BK_AVAILABLE st) (books_with BK_BORROWED st)
          (books_with BK_MAINTENANCE st) (books_with BK_LOST st)
          (sum_books Book.copiesTotal st)
          (sum_books Book.copiesAvailable st)), st).
Proof.
  unfold getBookStats.
  repeat (rewrite exec_bind, exec_await;
          unfold prisma_book_count at 1; cbn beta iota).
  repeat (rewrite exec_bind, exec_await;
          unfold prisma_book_sum at 1; cbn beta iota).
  rewrite exec_ret, map_filter_id by done. unfold sum_books.
  destruct (map_to_list (books st)) as [|kv l]; [done|].
  by rewrite !num_or_0.
Qed.




(** ** syncBookStatus *)

Lemma NoDup_fst_filter {V} (P : string * V → Prop) `{!∀ x, Decision (P x)}
    (l : list (string * V)) :
  NoDup l.*1 → NoDup (filter P l).*1.
Proof.
  induction l as [|x l IH]; [done|].
  rewrite fmap_cons, NoDup_cons. intros [Hx Hl].
  rewrite filter_cons. case_decide; [|by apply IH].
  rewrite fmap_cons, NoDup_cons. split; [|by apply IH].
  intros (y & Hy & Hin%list_elem_of_filter)%list_elem_of_fmap.
  apply Hx, list_elem_of_fmap. exists y. tauto.
Qed.

Lemma length_filter_map_to_list {V} (P : string * V → Prop)
    `{!∀ x, Decision (P x)} (m : gmap string V) :
  length (filter P (map_to_list m)) = size (filter P m).
Proof.
  rewrite (map_filter_alt P m), <- length_map_to_list. symmetry.
  apply Permutation_length, map_to_list_to_map, NoDup_fst_filter,
    NoDup_fst_map_to_list.
Qed.

Lemma synced_manual (b : Book.t) : manual_status b → synced b = b.
Proof. intros H. unfold synced. by rewrite decide_True. Qed.

Lemma synced_other (b : Book.t) :
  ¬ manual_status b → synced b = Book.set_status (correctStatus b) b.
Proof. intros H. unfold synced. by rewrite decide_False. Qed.

Lemma set_status_same (b : Book.t) : Book.set_status (Book.status b) b = b.
Proof. by destruct b. Qed.

Lemma correctStatus_not_manual (b : Book.t) :
  ¬ manual_status (Book.set_status (correctStatus b) b).
Proof.
  unfold manual_status, correctStatus. cbn.
  destruct (0 <? Book.copiesAvailable b); intros [|]; done.
Qed.

Lemma synced_idem (b : Book.t) : synced (synced b) = synced b.
Proof.
  destruct (decide (manual_status b)) as [H|H].
  - rewrite (synced_manual b H). by apply synced_manual.
  - rewrite (synced_other b H).
    rewrite synced_other by (by apply correctStatus_not_manual).
    done.
Qed.

Lemma syncBookStatus_loop_exec (l : list (string * Book.t)) :
  NoDup l.*1 →
  ∀ (updated : nat) (st : State),
    (∀ k b, (k, b) ∈ l → books st !! k = Some b ∧ ¬ manual_status b) →
    exec (syncBookStatus_loop l updated) st =
      (inr (updated +
              length (filter (λ kv : string * Book.t,
                                Book.status kv.2 ≠ correctStatus kv.2) l))%nat,
       with_books (λ m, foldl (λ m kv, alter synced kv.1 m) m l) st).
Proof.
  induction l as [|[k b] l IH]; intros Hnd updated st Hl.
  { cbn. rewrite Nat.add_0_r. by destruct st. }
  rewrite fmap_cons, NoDup_cons in Hnd. destruct Hnd as [Hk Hnd].
  destruct (Hl k b) as [Eb Hman]; [left|].
  assert (Hrest : ∀ m : gmap string Book.t, m !! k = m !! k →
            ∀ k' b', (k', b') ∈ l → k' ≠ k).
  { intros _ _ k' b' Hin ->. apply Hk, list_elem_of_fmap. by exists (k, b'). }
  cbn [syncBookStatus_loop foldl fst]. rewrite filter_cons. cbn [snd].
  fold (correctStatus b). case_bool_decide as Hs.
  - rewrite decide_True by done.
    rewrite exec_bind, exec_await. unfold prisma_book_update. rewrite Eb.
    rewrite isbn_conflict_same by done.
    rewrite IH; [|done|].
    + unfold with_books. cbn [books users borrowings notifications auditLogs
                              console clock length].
      rewrite <- (synced_other b Hman), (insert_as_alter synced k b) by done.
      do 2 f_equal. lia.
    + intros k' b' Hin. destruct (Hl k' b') as [E' H']; [by right|].
      split; [|done]. cbn. rewrite lookup_insert_ne; [done|].
      intros ->. by eapply (Hrest ∅).
  - rewrite decide_False by (intros Hne; by destruct Hne).
    rewrite IH; [|done|intros k' b' Hin; apply Hl; by right].
    unfold with_books. cbn beta. rewrite alter_id; [done|].
    intros x Ex. rewrite Eb in Ex. injection Ex as <-.
    rewrite synced_other, <- Hs by done.
    apply set_status_same.
Qed.

Lemma syncBookStatus_exec (st : State) :
  exec syncBookStatus st =
  (inr (size (filter (λ kv : string * Book.t, ¬ manual_status kv.2)
                     (books st)),
        size (filter (λ kv : string * Book.t,
                        ¬ manual_status kv.2 ∧
                        Book.status kv.2 ≠ correctStatus kv.2) (books st))),
   with_books (fmap synced) st).
Proof.
  unfold syncBookStatus. rewrite exec_bind, exec_await.
  unfold prisma_book_findMany. rewrite exec_bind.
  assert (Hfil : filter (λ kv : string * Book.t,
                    Book.status kv.2 ≠ BK_MAINTENANCE ∧
                    Book.status kv.2 ≠ BK_LOST) (books st) =
                 filter (λ kv : string * Book.t, ¬ manual_status kv.2)
                        (books st)).
  { apply map_filter_ext. intros k b _. cbn. unfold manual_status. tauto. }
  rewrite Hfil.
  rewrite syncBookStatus_loop_exec.
  - rewrite exec_ret, length_map_to_list, length_filter_map_to_list.
    rewrite map_filter_filter. cbn [Nat.add]. f_equal.
    + do 3 f_equal. apply map_filter_ext. intros; cbn; tauto.
    + unfold with_books. f_equal. apply map_eq. intros k.
      rewrite (foldl_alter_lookup synced fst _ synced_idem), lookup_fmap.
      case_decide as Hk; [done|].
      destruct (books st !! k) as [b|] eqn:Eb; [|done]. cbn.
      destruct (decide (manual_status b)) as [Hm|Hm];
        [by rewrite synced_manual|].
      destruct Hk. apply list_elem_of_fmap. exists (k, b). split; [done|].
      apply elem_of_map_to_list, map_lookup_filter_Some. done.
  - apply NoDup_fst_map_to_list.
  - intros k b Hin%elem_of_map_to_list%map_lookup_filter_Some. done.
Qed.

(** X13.  syncBookStatus fails on no store that serves its calls.  It
    leaves a book with status MAINTENANCE or LOST as it is; to every other
    book it gives the status AVAILABLE when copiesAvailable is above 0 and
    BORROWED otherwise, and changes no other field.  It writes no audit log
    and changes no other table.  Its totalBooks is the number of books it
    looked at, and its updated the number of those whose status it had to
    change. *)
Theorem syncBookStatus_sets_the_status (st : State) :
  ∃ total updated st',
    exec syncBookStatus st = (inr (total, updated), st') ∧
    (∀ k, books st' !! k = synced <$> books st !! k) ∧
    users st' = users st ∧ borrowings st' = borrowings st ∧
    notifications st' = notifications st ∧ auditLogs st' = auditLogs st ∧
    console st' = console st ∧ clock st' = clock st ∧
    total = size (filter (λ kv : string * Book.t, ¬ manual_status kv.2)
                         (books st)) ∧
    updated = size (filter (λ kv : string * Book.t,
                              ¬ manual_status kv.2 ∧
                              Book.status kv.2 ≠ correctStatus kv.2)
                           (books st)).
Proof.
  eexists _, _, _. split; [apply syncBookStatus_exec|]. cbn.
  split; [|done]. intros k. by rewrite lookup_fmap.
Qed.

(** X14.  A second syncBookStatus, right after a first, finds nothing to
    change: its updated is 0 and it leaves the state as the first one left
    it. *)
Theorem syncBookStatus_twice (st : State) :
  ∃ total updated st',
    exec syncBookStatus st = (inr (total, updated), st') ∧
    exec syncBookStatus st' = (inr (total, 0%nat), st').
Proof.
  eexists _, _, _. split; [apply syncBookStatus_exec|].
  rewrite syncBookStatus_exec. unfold with_books.
  cbn [books users borrowings notifications auditLogs console clock].
  match goal with
  | |- (inr (?a, ?b), ?s) = (inr (?a', ?b'), ?s') =>
      assert (a = a') as ->;
        [|assert (b = b') as ->; [|assert (s = s') as ->; [|done]]]
  end.
  - rewrite map_filter_fmap, map_size_fmap. f_equal.
    apply map_filter_ext. intros k b _. cbn.
    destruct (decide (manual_status b)) as [Hm|Hm].
    + rewrite synced_manual by done. tauto.
    + rewrite synced_other by done.
      split; [done|]. intros _. by apply correctStatus_not_manual.
  - apply map_size_empty_iff, map_empty. intros k.
    apply map_lookup_filter_None_2. right. intros b. rewrite lookup_fmap.
    destruct (books st !! k) as [b0|]; [|done]. cbn. intros [= <-] [Hm Hs].
    rewrite synced_other in Hs, Hm
      by (intros Hb; apply Hm; by rewrite synced_manual).
    apply Hs. cbn. unfold correctStatus. done.
  - f_equal. rewrite <- map_fmap_compose. apply map_fmap_ext.
    intros k b _. cbn. apply synced_idem.
Qed.

(** ** The ISBN of an update *)

(** X15.  updateBook for a key that no book has ends in BOOK_NOT_FOUND.
    When the body gives an ISBN that differs from the book's and that
    another book holds, a non-empty ISBN ends in ISBN_EXISTS; an empty one is
    not looked up by the handler, and the update, once the copies of the
    body have passed their check, is rejected by the unique index of the
    store with P2002.  In all three cases nothing is changed. *)
Theorem updateBook_isbn_conflicts (env : Env) (req : UpdateBookReq)
    (st : State) :
  (books st !! update_id req = None →
   exec (updateBook env req) st = (inl (AppError BOOK_NOT_FOUND 404), st)) ∧
  (∀ existing i k other,
     books st !! update_id req = Some existing →
     body_isbn req = Some (Some i) →
     Book.isbn existing ≠ Some i →
     k ≠ update_id req → books st !! k = Some other →
     Book.isbn other = Some i →
     (i ≠ EmptyString →
      exec (updateBook env req) st = (inl (AppError ISBN_EXISTS 409), st)) ∧
     (i = EmptyString →
      (∀ a t, body_copiesAvailable req = Some a →
              body_copiesTotal req = Some t → a ≤ t) →
      exec (updateBook env req) st = (inl P2002, st))).
Proof.
  split.
  { intros E. unfold updateBook. rewrite exec_bind, exec_await.
    unfold prisma_book_findUnique. by rewrite E. }
  intros existing i k other E Ei Hne Hk Eo Hi.
  assert (Hfound : is_Some (map_find
            (λ kv : string * Book.t, Book.isbn kv.2 = Some i) (books st))).
  { apply map_find_is_Some. by exists k, other. }
  unfold updateBook. rewrite exec_bind, exec_await.
  unfold prisma_book_findUnique. rewrite E, Ei. split.
  - intros Hi0. destruct i as [|a i]; [done|].
    rewrite bool_decide_eq_true_2 by congruence.
    rewrite !exec_bind, exec_await. unfold prisma_book_findUnique_isbn.
    by rewrite bool_decide_eq_true_2.
  - intros -> Hcopies. rewrite exec_bind, exec_ret, exec_bind.
    match goal with
    | |- context [exec ?p st] =>
        assert (Hcop : exec p st = (inr tt, st)); [|rewrite Hcop; clear Hcop]
    end.
    { destruct (body_copiesAvailable req) as [a|] eqn:Ea; [|done].
      destruct (body_copiesTotal req) as [t|] eqn:Et; [|done].
      pose proof (Hcopies a t eq_refl eq_refl).
      by rewrite (proj2 (Z.ltb_ge _ _)). }
    rewrite exec_bind, exec_await. unfold prisma_book_update. rewrite E.
    assert (isbn_conflict (update_id req) existing
              (update_data req existing) (books st) = true) as ->; [|done].
    unfold isbn_conflict, update_data. cbn. rewrite Ei. cbn.
    rewrite decide_False by congruence.
    apply bool_decide_eq_true_2, map_find_is_Some. by exists k, other.
Qed.

(** ** A store that fails between two writes *)

(** X16.  borrowBook writes the borrowing and then takes the copy, in two
    calls of the store.  When all its checks pass and the store serves the
    first five calls but rejects the sixth, the decrement of copiesAvailable,
    the handler ends in the error of the store: the borrowing is in the
    table, the book still has its copy, and no audit log or notification is
    written.  If the copies of every book were accounted for before, they
    are not any more. *)
Theorem borrowBook_is_not_all_or_nothing (env : Env) (req : BorrowReq)
    (st : State) (book : Book.t) (user : User.t) :
  borrow_ok env req st book user →
  let st' :=
    with_borrowings (insert (uuid env) (borrowed_row env req st)) st in
  run (borrowBook env req) [false; false; false; false; false; true] st
    = (inl StoreUnavailable, st') ∧
  (ledger_ok st → ¬ ledger_ok st').
Proof.
  intros (Hpriv & Hb & E & Hc & Eu & Ha & Hh & Hm & Eb) st'. split.
  - unfold borrowBook.
    match goal with
    | |- run (mbind ?k ?p) _ _ = _ => assert (Hp : p = mret (borrower req))
    end.
    { unfold on_behalf, borrower in *.
      destruct (truthy (borrow_userId req)); [|done]. cbn.
      case_bool_decide as H1; [|done]. cbn.
      case_bool_decide as H2; [|done]. destruct H2. by apply Hpriv. }
    rewrite Hp. clear Hp. cbn.
    change (default EmptyString (borrow_bookId req)) with (book_of req).
    rewrite Hb. cbn. rewrite E. cbn.
    rewrite (proj2 (Z.leb_gt _ _)) by done. cbn. rewrite Eu. cbn.
    rewrite bool_decide_eq_false_2 by (by intros []). cbn.
    rewrite holds_find in Hh.
    rewrite bool_decide_eq_false_2 by done. cbn.
    rewrite count_borrowed_eq. fold (max_books env).
    rewrite (proj2 (Z.leb_gt _ _)) by done. cbn.
    unfold prisma_borrowing_create. rewrite Eb. cbn. done.
  - intros Hled Hled'.
    destruct (Hled _ _ E) as [_ H1].
    destruct (Hled' (book_of req) book) as [_ H2]; [done|].
    unfold on_loan in *. subst st'. cbn [borrowings with_borrowings] in H2.
    rewrite size_filter_insert_new in H2 by done.
    rewrite decide_True in H2 by done. lia.
Qed.

Lemma updateBook_isbn_conflicts_witness :
  exec (updateBook Scenario.env (Scenario7.set_isbn "b1" "978-0"))
       Scenario7.catalogue
    = (inl (AppError ISBN_EXISTS 409), Scenario7.catalogue) ∧
  exec (updateBook Scenario.env (Scenario7.set_isbn "b2" EmptyString))
       Scenario7.catalogue
    = (inl P2002, Scenario7.catalogue).
Proof.
  split.
  - destruct (updateBook_isbn_conflicts Scenario.env
                (Scenario7.set_isbn "b1" "978-0") Scenario7.catalogue)
      as [_ H].
    destruct (H (Scenario7.with_isbn EmptyString (Scenario.a_book "Dune" 3 3))
                "978-0" "b2"
                (Scenario7.with_isbn "978-0" (Scenario.a_book "Emma" 1 1)))
      as [H1 _]; [done..|].
    by apply H1.
  - destruct (updateBook_isbn_conflicts Scenario.env
                (Scenario7.set_isbn "b2" EmptyString) Scenario7.catalogue)
      as [_ H].
    destruct (H (Scenario7.with_isbn "978-0" (Scenario.a_book "Emma" 1 1))
                EmptyString "b1"
                (Scenario7.with_isbn EmptyString (Scenario.a_book "Dune" 3 3)))
      as [_ H2]; [done..|].
    by apply H2.
Defined.

Lemma borrowBook_is_not_all_or_nothing_witness :
  ledger_ok Scenario6.shelf ∧
  ∃ st',
    run (borrowBook Scenario.env (Scenario.lend Scenario.admin "u1" "b2"))
        [false; false; false; false; false; true] Scenario6.shelf
      = (inl StoreUnavailable, st') ∧
    is_Some (borrowings st' !! "br-new") ∧
    Book.copiesAvailable <$> books st' !! "b2" = Some 1 ∧
    ¬ ledger_ok st'.
Proof.
  assert (Hled : ledger_ok Scenario6.shelf)
    by (apply ledger_check_ok; vm_compute; reflexivity).
  split; [done|].
  destruct (borrowBook_is_not_all_or_nothing Scenario.env
              (Scenario.lend Scenario.admin "u1" "b2") Scenario6.shelf
              (Scenario.a_book "Emma" 1 1) (Scenario.a_user "u1" USER))
    as [H1 H2].
  { refine (conj _ (conj _ (conj _ (conj _ (conj _ (conj _ (conj _
              (conj _ _))))))));
      try (vm_compute; reflexivity); try (intros _; reflexivity).
    rewrite holds_find. vm_compute. intros [x Hx]. discriminate Hx. }
  eexists. split; [exact H1|]. split; [by eexists|].
  split; [vm_compute; reflexivity|]. by apply H2.
Defined.

Lemma getBookById_shows_the_latest_ten_witness :
  ∃ l,
    exec (getBookById "b2") (Scenario2.one_out BORROWED 120)
      = (inr (Scenario.a_book "Emma" 1 0, l),
         Scenario2.one_out BORROWED 120) ∧
    length l = 1%nat.
Proof.
  destruct (getBookById_shows_the_latest_ten "b2"
              (Scenario2.one_out BORROWED 120)) as [_ H].
  destruct (H (Scenario.a_book "Emma" 1 0)) as (l & Hex & Hlen & _).
  { vm_compute. reflexivity. }
  exists l. split; [done|]. rewrite Hlen. vm_compute. reflexivity.
Defined.

(** ** Two returns of one borrowing *)

(** X17.  Two returnBook requests for the same borrowing, which is not
    RETURNED and whose book is in the catalogue: when one runs after the
    other, the first succeeds and the second ends in ALREADY_RETURNED and
    changes nothing.  The check and the writes are separate store calls:
    when both requests read the borrowing before either writes, both
    succeed, the copiesAvailable of the book goes up by 2 for one borrowing,
    and two notifications are written. *)
Theorem returnBook_twice_at_once (env : Env) (req1 req2 : ReturnReq)
    (st : State) (b : Borrowing.t) (book : Book.t) :
  return_borrowingId req2 = return_borrowingId req1 →
  borrowings st !! return_borrowingId req1 = Some b →
  Borrowing.status b ≠ RETURNED →
  books st !! Borrowing.bookId b = Some book →
  (∃ r st1,
     exec (returnBook env req1) st = (inr r, st1) ∧
     exec (returnBook env req2) st1
       = (inl (AppError ALREADY_RETURNED 400), st1)) ∧
  (∃ r1 r2 st',
     interleave both_read_first [returnBook env req1; returnBook env req2] st
       = ([Ret r1; Ret r2], st') ∧
     books st' !! Borrowing.bookId b =
       Some (Book.set_copiesAvailable (λ n, n + 1 + 1) book) ∧
     Borrowing.status <$> borrowings st' !! return_borrowingId req1
       = Some RETURNED ∧
     length (notifications st') = S (S (length (notifications st)))).
Proof.
  intros Hsame Eb Hs Ek. split.
  - destruct (returnBook_cases env req1 st) as [_ H1]. cbn zeta in H1.
    destruct (H1 b Eb) as [_ H2]. destruct (H2 Hs) as [_ H3].
    destruct (H3 book Ek) as (st1 & Hex & Hbor & _).
    eexists _, st1. split; [exact Hex|].
    destruct (returnBook_cases env req2 st1) as [_ H4]. cbn zeta in H4.
    rewrite Hsame, Hbor, lookup_insert_eq in H4.
    destruct (H4 _ eq_refl) as [H5 _]. by apply H5.
  - unfold returnBook, both_read_first. rewrite Hsame.
    cbn. rewrite Eb. cbn.
    rewrite !bool_decide_eq_false_2 by done. cbn.
    unfold prisma_borrowing_update. rewrite Eb. cbn.
    unfold prisma_book_update. cbn. rewrite Ek.
    rewrite isbn_conflict_same by done. cbn.
    unfold include. cbn. rewrite ?Ek. cbn.
    rewrite lookup_insert_eq. cbn. rewrite lookup_insert_eq.
    rewrite isbn_conflict_same by done. cbn.
    eexists _, _, _. split; [reflexivity|]. cbn.
    rewrite insert_insert_eq, !lookup_insert_eq, !length_app. cbn.
    split; [reflexivity|split; [done|lia]].
Qed.

Lemma returnBook_twice_at_once_witness :
  Book.copiesTotal <$> books (Scenario2.one_out BORROWED 120) !! "b2"
    = Some 1 ∧
  ∃ r1 r2 st',
    interleave both_read_first
      [returnBook Scenario.env (Scenario2.give_back "br-1");
       returnBook Scenario.env (Scenario2.give_back "br-1")]
      (Scenario2.one_out BORROWED 120)
      = ([Ret r1; Ret r2], st') ∧
    Book.copiesAvailable <$> books st' !! "b2" = Some 2.
Proof.
  split; [vm_compute; reflexivity|].
  destruct (returnBook_twice_at_once Scenario.env
              (Scenario2.give_back "br-1") (Scenario2.give_back "br-1")
              (Scenario2.one_out BORROWED 120)
              (Borrowing.mk "u1" "b2" (100 * DAY_MS) (114 * DAY_MS)
                            None BORROWED None)
              (Scenario.a_book "Emma" 1 0))
    as [_ (r1 & r2 & st' & Hi & Hk & _)];
    [reflexivity|vm_compute; reflexivity|discriminate|
     vm_compute; reflexivity|].
  exists r1, r2, st'. split; [exact Hi|].
  cbn in Hk. rewrite Hk. reflexivity.
Defined.

(** ** An extension after a tick *)

(** X18.  A borrowing that is BORROWED and past its expectedReturnDate can
    be extended, by one day or more, as long as no tick of the sweep has
    found it; the same request right after a tick, on a store that serves
    every call and whose foreign keys resolve, ends in INVALID_STATUS and
    changes nothing. *)
Theorem extendBorrowing_after_a_tick (env : Env) (req : ExtendReq)
    (st : State) (d : Z) (x : BorrowingIncl) :
  refs_ok st →
  additionalDays req = Some d → 1 ≤ d →
  x ∈ overdue_now st → extend_borrowingId req = id x →
  let st' := (exec (checkOverdueBooks env) st).2 in
  (∃ r st1, exec (extendBorrowing env req) st = (inr r, st1)) ∧
  exec (extendBorrowing env req) st'
    = (inl (AppError INVALID_STATUS 400), st').
Proof.
  intros Hrefs Hd Hd1 (Hk & [Hs Hlate] & _)%overdue_now_elem Hid st'. split.
  - destruct (extendBorrowing_cases env req st) as [_ H]. cbn zeta in H.
    destruct (H d Hd) as [_ H1]. destruct (H1 Hd1) as [_ H2].
    rewrite Hid in H2. destruct (H2 _ Hk) as [_ H3].
    destruct (H3 Hs) as (st1 & Hex & _). by eexists _, _.
  - destruct (extendBorrowing_cases env req st') as [_ H]. cbn zeta in H.
    destruct (H d Hd) as [_ H1]. destruct (H1 Hd1) as [_ H2].
    assert (Hk' : borrowings st' !! id x
                  = Some (Borrowing.set_status OVERDUE (row x))).
    { subst st'.
      rewrite (checkOverdueBooks_exec env st (refs_ok_overdue_now st Hrefs)).
      cbn [snd borrowings]. rewrite lookup_fmap, Hk. cbn.
      unfold mark_overdue. by rewrite decide_True. }
    rewrite Hid in H2. destruct (H2 _ Hk') as [H3 _]. by apply H3.
Qed.

Lemma extendBorrowing_after_a_tick_witness :
  (∃ r st1,
     exec (extendBorrowing Scenario.env (Scenario2.extend_by "br-1" 7))
          Scenario4.two_late = (inr r, st1)) ∧
  exec (extendBorrowing Scenario.env (Scenario2.extend_by "br-1" 7))
       (exec (checkOverdueBooks Scenario.env) Scenario4.two_late).2
  = (inl (AppError INVALID_STATUS 400),
     (exec (checkOverdueBooks Scenario.env) Scenario4.two_late).2).
Proof.
  apply (extendBorrowing_after_a_tick Scenario.env
           (Scenario2.extend_by "br-1" 7) Scenario4.two_late 7
           (include Scenario4.two_late
              ("br-1", Scenario.a_borrowing "u1" "b2" (114 * DAY_MS)
                         BORROWED))).
  - apply refs_check_ok. vm_compute. reflexivity.
  - reflexivity.
  - lia.
  - unfold overdue_now. apply list_elem_of_fmap. eexists. split; [done|].
    apply elem_of_map_to_list, map_lookup_filter_Some.
    split; [vm_compute; reflexivity|]. cbn. split; [done|].
    vm_compute. reflexivity.
  - reflexivity.
Defined.

(** ** A return during a tick *)

Lemma overdue_now_intro (st : State) (k : string) (b : Borrowing.t) :
  borrowings st !! k = Some b → is_overdue (clock st) b →
  include st (k, b) ∈ overdue_now st.
Proof.
  intros Hk Hov. unfold overdue_now. apply include_elem. by exists k, b.
Qed.

(** X19.  A tick of the sweep reads the overdue borrowings in one store
    call and flags them in later ones.  When an overdue borrowing is
    returned between the two, the return succeeds and the tick then sets the
    status of the returned borrowing to OVERDUE: the borrowing keeps its
    actualReturnDate, the copy is back on the shelf, and a second return of
    the same borrowing succeeds and adds the copy once more. *)
Theorem returnBook_during_a_tick (env : Env) (req : ReturnReq) (st : State)
    (b : Borrowing.t) (bk : Book.t) :
  refs_ok st →
  borrowings st !! return_borrowingId req = Some b →
  is_overdue (clock st) b →
  books st !! Borrowing.bookId b = Some bk →
  ∃ n m q0 q1 st',
    interleave (tick_reads_first n m)
      [checkOverdueBooks env; answered (returnBook env req)] st
      = ([q0; q1], st') ∧
    outcome q0 = Some (inr tt) ∧ outcome q1 = Some (inr tt) ∧
    borrowings st' !! return_borrowingId req
      = Some (Borrowing.set_status OVERDUE (returned_row req st b)) ∧
    books st' !! Borrowing.bookId b
      = Some (Book.set_copiesAvailable (λ n, n + 1) bk) ∧
    ∃ r st'',
      exec (returnBook env req) st' = (inr r, st'') ∧
      books st'' !! Borrowing.bookId b
        = Some (Book.set_copiesAvailable (λ n, n + 1 + 1) bk).
Proof.
  intros Hrefs Eb Hov Ek.
  assert (Hs : Borrowing.status b ≠ RETURNED)
    by (destruct Hov as [-> _]; done).
  destruct (returnBook_cases env req st) as [_ H1]. cbn zeta in H1.
  destruct (H1 b Eb) as [_ H2]. destruct (H2 Hs) as [_ H3].
  destruct (H3 bk Ek) as (st1 & Hex1 & Hbor1 & Hbooks1 & _).
  assert (Hret : exec (answered (returnBook env req)) st = (inr tt, st1)).
  { unfold answered. by rewrite exec_bind, Hex1. }
  set (L := overdue_now st).
  set (p0 := try_catch
               (for_of L (checkOverdueBooks_body env);;
                console_log (LogOverdueCompleted (length L)))
               (λ _, console_log LogOverdueError)).
  assert (Hturn : turn (checkOverdueBooks env) st = (p0, st)) by done.
  assert (HL : ∀ x, x ∈ L → is_Some (borrowings st1 !! id x) ∧
                             is_Some (book x) ∧ is_Some (user x)).
  { intros x Hx. split; [|by apply (refs_ok_overdue_now st)].
    apply overdue_now_elem in Hx as (Hk & _).
    rewrite Hbor1. apply (is_Some_insert_existing _ _ _ _ _ Eb).
    by rewrite Hk. }
  assert (Hp0 : ∃ st',
            exec p0 st1 = (inr tt, st') ∧
            books st' = books st1 ∧
            borrowings st' =
              foldl (λ m x, alter (Borrowing.set_status OVERDUE) (id x) m)
                    (borrowings st1) L).
  { unfold p0. rewrite exec_try_catch, exec_bind.
    rewrite (sweep_loop_exec env L st1 HL).
    unfold console_log. rewrite exec_sync. by eexists. }
  destruct Hp0 as (st' & Hex0 & Hbooks' & Hbor').
  destruct (exec_turns (answered (returnBook env req)) st) as (n & Ho1 & Hs1).
  destruct (exec_turns p0 st1) as (m & Ho0 & Hs0).
  rewrite Hret in Ho1, Hs1. rewrite Hex0 in Ho0, Hs0.
  cbn [fst snd] in Ho1, Hs1, Ho0, Hs0.
  assert (Hrow : borrowings st' !! return_borrowingId req
                 = Some (Borrowing.set_status OVERDUE
                           (returned_row req st b))).
  { rewrite Hbor'.
    rewrite (foldl_alter_lookup (Borrowing.set_status OVERDUE) id) by done.
    rewrite decide_True.
    - by rewrite Hbor1, lookup_insert_eq.
    - apply list_elem_of_fmap.
      exists (include st (return_borrowingId req, b)).
      split; [done|]. by apply overdue_now_intro. }
  assert (Hbook : books st' !! Borrowing.bookId b
                  = Some (Book.set_copiesAvailable (λ n, n + 1) bk)).
  { by rewrite Hbooks', Hbooks1, lookup_insert_eq. }
  exists n, m. eexists _, _, st'.
  split; [|split; [exact Ho0|split; [exact Ho1|split; [exact Hrow|
           split; [exact Hbook|]]]]].
  - unfold tick_reads_first. cbn [interleave lookup list_lookup].
    rewrite Hturn. cbn [insert list_insert].
    rewrite interleave_app.
    rewrite (interleave_replicate n 1 _ (answered (returnBook env req)))
      by done.
    cbn [fst snd]. rewrite Hs1.
    rewrite (interleave_replicate m 0 _ p0) by done.
    rewrite Hs0. done.
  - destruct (returnBook_cases env req st') as [_ H4]. cbn zeta in H4.
    destruct (H4 _ Hrow) as [_ H5]. destruct (H5 ltac:(done)) as [_ H6].
    destruct (H6 _ Hbook) as (st'' & Hex2 & _ & Hbooks2 & _).
    eexists _, st''. split; [exact Hex2|].
    rewrite Hbooks2. cbn. by rewrite lookup_insert_eq.
Qed.

Lemma returnBook_during_a_tick_witness :
  ∃ n m q0 q1 st',
    interleave (tick_reads_first n m)
      [checkOverdueBooks Scenario.env;
       answered (returnBook Scenario.env (Scenario2.give_back "br-1"))]
      (Scenario2.one_out BORROWED 120)
      = ([q0; q1], st') ∧
    Borrowing.status <$> borrowings st' !! "br-1" = Some OVERDUE ∧
    Book.copiesAvailable <$> books st' !! "b2" = Some 1.
Proof.
  destruct (returnBook_during_a_tick Scenario.env
              (Scenario2.give_back "br-1") (Scenario2.one_out BORROWED 120)
              (Borrowing.mk "u1" "b2" (100 * DAY_MS) (114 * DAY_MS)
                            None BORROWED None)
              (Scenario.a_book "Emma" 1 0))
    as (n & m & q0 & q1 & st' & Hi & _ & _ & Hrow & Hbook & _).
  - apply refs_check_ok. vm_compute. reflexivity.
  - vm_compute. reflexivity.
  - split; [done|]. vm_compute. reflexivity.
  - vm_compute. reflexivity.
  - exists n, m, q0, q1, st'. split; [exact Hi|].
    cbn in Hrow, Hbook. rewrite Hrow, Hbook. done.
Defined.

(** ** The copies that are out *)

Lemma sum_zero {X} (l : list X) : foldr (λ _ s, 0 + s) 0 l = 0.
Proof. induction l; cbn; lia. Qed.

Lemma sum_split {X} (f g h : X → Z) (l : list X) :
  (∀ x, x ∈ l → f x = g x + h x) →
  foldr (λ x s, f x + s) 0 l =
  foldr (λ x s, g x + s) 0 l + foldr (λ x s, h x + s) 0 l.
Proof.
  induction l as [|x l IH]; intros Hl; cbn; [done|].
  rewrite (Hl x) by left. rewrite IH by (intros y Hy; apply Hl; by right).
  lia.
Qed.

Lemma sum_one_more {V} (j : string) (Q : Prop) `{!Decision Q}
    (c : string * V → nat) (l : list (string * V)) :
  NoDup l.*1 →
  foldr (λ kv s,
           Z.of_nat (if decide (j = kv.1 ∧ Q) then S (c kv) else c kv) + s)
        0 l =
  foldr (λ kv s, Z.of_nat (c kv) + s) 0 l +
  (if decide (j ∈ l.*1 ∧ Q) then 1 else 0).
Proof.
  induction l as [|[k v] l IH]; intros Hnd; cbn.
  { rewrite decide_False; [done|]. intros [Hj _]. by apply elem_of_nil in Hj. }
  apply NoDup_cons in Hnd as [Hk Hnd]. rewrite IH by done.
  destruct (decide (j = k ∧ Q)) as [[-> HQ]|Hn].
  - rewrite (decide_False (P := k ∈ l.*1 ∧ Q)) by tauto.
    rewrite decide_True by (split; [left|done]). lia.
  - destruct (decide (j ∈ l.*1 ∧ Q)) as [[Hj HQ]|Hn'].
    + rewrite decide_True by (split; [by right|done]). lia.
    + rewrite decide_False; [lia|]. intros [Hj HQ].
      apply elem_of_cons in Hj as [->|Hj]; tauto.
Qed.

(** Over the books of the catalogue, the borrowings that are out add up to
    the borrowings that are not returned. *)
Lemma sum_on_loan (bks : gmap string Book.t) (m : gmap string Borrowing.t) :
  (∀ k b, m !! k = Some b → is_Some (bks !! Borrowing.bookId b)) →
  foldr (λ (kv : string * Book.t) s,
           Z.of_nat (size (filter
             (λ x : string * Borrowing.t,
                Borrowing.bookId x.2 = kv.1 ∧ Borrowing.status x.2 ≠ RETURNED)
             m)) + s)
        0 (map_to_list bks) =
  Z.of_nat (size (filter
    (λ x : string * Borrowing.t, Borrowing.status x.2 ≠ RETURNED) m)).
Proof.
  induction m as [|i x m Hi IH] using map_ind; intros Hm.
  { rewrite map_filter_empty, map_size_empty.
    erewrite (foldr_ext _ (λ _ s, 0 + s)); [apply sum_zero| |done..].
    intros kv s. by rewrite map_filter_empty, map_size_empty. }
  rewrite size_filter_insert_new by done. cbn [snd].
  erewrite (foldr_ext _ (λ (kv : string * Book.t) s,
              Z.of_nat (if decide (Borrowing.bookId x = kv.1 ∧
                                   Borrowing.status x ≠ RETURNED)
                        then S _ else _) + s)); [| |done..].
  2:{ intros kv s. rewrite size_filter_insert_new by done. cbn [snd].
      reflexivity. }
  rewrite (sum_one_more (Borrowing.bookId x) (Borrowing.status x ≠ RETURNED)
             (λ kv, size (filter
                (λ y : string * Borrowing.t,
                   Borrowing.bookId y.2 = kv.1 ∧
                   Borrowing.status y.2 ≠ RETURNED) m)))
    by apply NoDup_fst_map_to_list.
  rewrite IH.
  2:{ intros k b Hk. apply (Hm k). rewrite lookup_insert_ne; [done|].
      intros ->. by rewrite Hi in Hk. }
  assert (Hin : Borrowing.bookId x ∈ (map_to_list bks).*1).
  { destruct (Hm i x) as [bk Hbk]; [by rewrite lookup_insert_eq|].
    apply list_elem_of_fmap. exists (Borrowing.bookId x, bk).
    split; [done|]. by apply elem_of_map_to_list. }
  destruct (decide (Borrowing.status x ≠ RETURNED)) as [Hs|Hs].
  - rewrite decide_True by done. lia.
  - rewrite decide_False by tauto. lia.
Qed.

(** X20.  In a state where every copy of every book is either available or
    out with a borrowing that is not RETURNED, and whose foreign keys
    resolve, the two statistics agree: totalCopies less availableCopies of
    getBookStats is totalBorrowings less returnedBorrowings of
    getBorrowingStats. *)
Theorem the_statistics_agree (st : State) :
  ledger_ok st → refs_ok st →
  ∃ bs rs,
    exec getBookStats st = (inr bs, st) ∧
    exec getBorrowingStats st = (inr rs, st) ∧
    totalCopies bs - availableCopies bs =
      totalBorrowings rs - returnedBorrowings rs.
Proof.
  intros Hled Hrefs. eexists _, _.
  split; [apply getBookStats_exec|]. split; [apply getBorrowingStats_exec|].
  cbn. unfold sum_books, borrowings_with.
  rewrite (sum_split (λ kv : string * Book.t, Book.copiesTotal kv.2)
             (λ kv, Book.copiesAvailable kv.2)
             (λ kv, on_loan st kv.1)).
  2:{ intros [k bk] Hk%elem_of_map_to_list. cbn.
      destruct (Hled _ _ Hk) as [_ <-]. done. }
  unfold on_loan. rewrite sum_on_loan.
  2:{ intros k b Hk. by destruct (Hrefs _ _ Hk). }
  rewrite (size_filter_complement
             (λ kv : string * Borrowing.t, Borrowing.status kv.2 = RETURNED)
             (borrowings st)).
  lia.
Qed.

Lemma the_statistics_agree_witness :
  ∃ bs rs,
    exec getBookStats (lifecycle [DoBorrow Scenario.env
            (Scenario.lend Scenario.admin "u1" "b2")] Scenario6.shelf)
      = (inr bs, lifecycle [DoBorrow Scenario.env
            (Scenario.lend Scenario.admin "u1" "b2")] Scenario6.shelf) ∧
    exec getBorrowingStats (lifecycle [DoBorrow Scenario.env
            (Scenario.lend Scenario.admin "u1" "b2")] Scenario6.shelf)
      = (inr rs, lifecycle [DoBorrow Scenario.env
            (Scenario.lend Scenario.admin "u1" "b2")] Scenario6.shelf) ∧
    totalCopies bs - availableCopies bs =
      totalBorrowings rs - returnedBorrowings rs ∧
    totalBorrowings rs = 1.
Proof.
  destruct (the_statistics_agree (lifecycle [DoBorrow Scenario.env
              (Scenario.lend Scenario.admin "u1" "b2")] Scenario6.shelf))
    as (bs & rs & H1 & H2 & H3).
  - apply ledger_check_ok. vm_compute. reflexivity.
  - apply refs_check_ok. vm_compute. reflexivity.
  - exists bs, rs. split; [exact H1|]. split; [exact H2|].
    split; [exact H3|].
    assert (E : (exec getBorrowingStats (lifecycle [DoBorrow Scenario.env
                   (Scenario.lend Scenario.admin "u1" "b2")]
                   Scenario6.shelf)).1 = inr (mkBorrowingStats 1 1 0 0))
      by (vm_compute; reflexivity).
    rewrite H2 in E. cbn in E. injection E as ->. reflexivity.
Defined.

(** ** The days of a borrow *)



